(** * canary-router: the request-routing engine of [canaryrouter/server.go]

    A shallow embedding of the per-request handler of the canary router
    ([viaProxy], [viaProxyWithSidecar], [callSidecar], [serveMain],
    [serveCanary], [convertToBool], [setRoutingReason], [NewServer]) and the
    properties of its routing decisions.

    The handler talks to collaborators that live outside [server.go]: the
    instrumentation package, the three reverse proxies, the token bucket and
    the client's [http.ResponseWriter].  Every such call is an operation
    ([Op]) of a small program tree ([Prog]); the handler is translated once
    into such a tree, and the tree is then run either sequentially ([exec])
    or as one goroutine among many that share the canary bucket ([step]). *)

From Stdlib Require Import ZArith List String Ascii Bool Lia DecimalString.
Import ListNotations.

Local Open Scope string_scope.
Local Open Scope Z_scope.

(** ** Constants of the package *)

(** [const infinityDuration time.Duration = 0x7fffffffffffffff] *)
Definition infinityDuration : Z := 0x7fffffffffffffff.

Definition StatusOK : Z := 200.
Definition StatusInternalServerError : Z := 500.
Definition StatusServiceUnavailable : Z := 503.

(** [const StatusSidecarError = http.StatusServiceUnavailable] *)
Definition StatusSidecarError : Z := StatusServiceUnavailable.

(** Go's conversion [int64(x)]: two's complement wrap-around on 64 bits. *)
Definition int64 (x : Z) : Z := (x + 2 ^ 63) mod 2 ^ 64 - 2 ^ 63.

(** [fmt.Sprintf("%d", n)] *)
Definition itoa (n : Z) : string := NilZero.string_of_int (Z.to_int n).

(** ** Data *)

Inductive Target : Type := Main | Canary.

Definition target_name (t : Target) : string :=
  match t with Main => "main" | Canary => "canary" end.

(** A value handed to [panic]: the three cases the recovery code of
    [viaProxy] tells apart.  An [error] is kept as its [Error()] text, any
    other value as its [%v] rendering. *)
Inductive PanicValue : Type :=
| PanicString (t : string)
| PanicError (message : string)
| PanicOther (rendered : string).

(** The result of a call that may panic instead of returning. *)
Inductive Outcome (X : Type) : Type :=
| Returned (x : X)
| Panicked (v : PanicValue).
Arguments Returned {X} x.
Arguments Panicked {X} v.

(** An [io.Reader] over the request body: it yields the bytes of [content]
    and then either end-of-file ([failure = None]) or a read error. *)
Record Reader : Type := {
  content : list Byte.byte;
  failure : option string
}.

(** [ioutil.ReadAll(r)]: everything read before EOF or the first error. *)
Definition ReadAll (r : Reader) : list Byte.byte * option string :=
  (content r, failure r).

(** [ioutil.NopCloser(&buffer)] / [ioutil.NopCloser(bytes.NewReader(b))]:
    a fresh reader over bytes held in memory. *)
Definition NopCloser (buffer : list Byte.byte) : Reader :=
  {| content := buffer; failure := None |}.

(** A [context.Context], seen only through the instrumentation package:
    the tags attached so far. *)
Definition Context : Type := list (string * string).

Definition HeaderMap : Type := list (string * list string).

(** [http.Header.Get]: the first value stored under the key, the empty string when the
    key is absent. *)
Fixpoint Header_Get (h : HeaderMap) (key : string) : string :=
  match h with
  | [] => EmptyString
  | (k, vs) :: rest =>
      if String.eqb k key then match vs with v :: _ => v | [] => EmptyString end
      else Header_Get rest key
  end.

Record Request : Type := {
  Path : string;          (* req.URL.Path *)
  Header : HeaderMap;
  Body : Reader;
  Ctx : Context           (* req.Context() *)
}.

(** [req.WithContext(ctx)] *)
Definition WithContext (req : Request) (ctx : Context) : Request :=
  {| Path := Path req; Header := Header req; Body := Body req; Ctx := ctx |}.

Definition with_Path (req : Request) (p : string) : Request :=
  {| Path := p; Header := Header req; Body := Body req; Ctx := Ctx req |}.

Definition with_Body (req : Request) (b : Reader) : Request :=
  {| Path := Path req; Header := Header req; Body := b; Ctx := Ctx req |}.

Record CircuitBreakerConfig : Type := {
  RequestLimitCanary : Z
}.

(** The fields of [config.Config] that [server.go] reads. *)
Record Config : Type := {
  MainTarget : string;
  MainHeaderHost : string;
  CanaryTarget : string;
  CanaryHeaderHost : string;
  SidecarURL : string;
  TrimPrefix : string;
  CircuitBreaker : CircuitBreakerConfig
}.

(** ** The canary bucket *)

(** Modelled from the spec: [ratelimit.Bucket] of github.com/juju/ratelimit,
    whose code is not part of this repository.  The spec (Canary Quota
    Limiter) describes it as a counter bounded at the configured capacity
    that is never replenished: [Remaining()] reads it and [TryAdmit()]
    decrements it by one if and only if it is greater than zero.  The source
    reaches these through [Available()] and [TakeAvailable(1)], and asks for
    "no replenishment" by constructing the bucket with the fill interval
    [infinityDuration]. *)
Record Bucket : Type := {
  fillInterval : Z;
  capacity : Z;
  availableTokens : Z
}.

Definition NewBucket (interval cap : Z) : Bucket :=
  {| fillInterval := interval; capacity := cap; availableTokens := cap |}.

Definition Available (b : Bucket) : Z := availableTokens b.

(** Takes up to [count] of the tokens that are available and returns how
    many were taken; nothing is taken from an empty bucket. *)
Definition TakeAvailable (count : Z) (b : Bucket) : Z * Bucket :=
  if (0 <? count) && (0 <? availableTokens b) then
    let taken := Z.min count (availableTokens b) in
    (taken, {| fillInterval := fillInterval b; capacity := capacity b;
               availableTokens := availableTokens b - taken |})
  else (0, b).

(** ** The server *)

(** [canaryBucket] is the pointer field of the Go struct: [None] is [nil].
    The bucket it holds here is the bucket as constructed; the tokens left
    while requests are served live in the shared state of a run. *)
Record Server : Type := {
  version : string;
  config : Config;
  canaryBucket : option Bucket
}.

Definition isSidecarProvided_config (c : Config) : bool :=
  negb (String.eqb (SidecarURL c) EmptyString).

(** [func (s *Server) isSidecarProvided() bool] *)
Definition isSidecarProvided (s : Server) : bool :=
  isSidecarProvided_config (config s).

(** [func (s *Server) IsCanaryLimited() bool] *)
Definition IsCanaryLimited (s : Server) : bool :=
  match canaryBucket s with Some _ => true | None => false end.

(** ** Response writers *)

(** Modelled on net/http: an [http.ResponseWriter] (and the
    [httptest.ResponseRecorder] of [callSidecar]) commits its status with the
    first [WriteHeader]; a later [WriteHeader] changes nothing, and the first
    [Write] without a header commits status 200. *)
Record ResponseWriter : Type := {
  wroteHeader : bool;
  Code : Z;
  Written : string
}.

(** [httptest.NewRecorder()]; also the state of a client connection on
    which nothing has been sent yet. *)
Definition NewRecorder : ResponseWriter :=
  {| wroteHeader := false; Code := StatusOK; Written := EmptyString |}.

Definition rw_WriteHeader (code : Z) (w : ResponseWriter) : ResponseWriter :=
  if wroteHeader w then w
  else {| wroteHeader := true; Code := code; Written := Written w |}.

Definition rw_Write (data : string) (w : ResponseWriter) : ResponseWriter :=
  let w' := rw_WriteHeader StatusOK w in
  {| wroteHeader := true; Code := Code w'; Written := Written w' ++ data |}.

Inductive WriterAction : Type :=
| DoWriteHeader (code : Z)
| DoWrite (data : string).

Definition apply_action (w : ResponseWriter) (a : WriterAction) : ResponseWriter :=
  match a with
  | DoWriteHeader code => rw_WriteHeader code w
  | DoWrite data => rw_Write data w
  end.

Definition apply_actions (acts : list WriterAction) (w : ResponseWriter) : ResponseWriter :=
  fold_left apply_action acts w.

(** ** Operations on the collaborators of the handler *)

Inductive LogEntry : Type :=
| LogText (text : string)
| LogRouted (t : Target) (req : Request)         (* "Routed to ... target: %+v" *)
| LogPanic (r : PanicValue) (req : Request).     (* "[Panic] Recovered in request handling: ..." *)

(** What the round trip of the sidecar reverse proxy ends in: a response of
    the decision service, or a transport error, which the proxy hands to its
    [ErrorHandler]. *)
Inductive SidecarReply : Type :=
| Responded (code : Z) (body : string)
| TransportFailed (err : string).

Inductive Op : Type :=
| InitializeLatencyTracking (ctx : Context)
| AddReasonTag (ctx : Context) (reason : string)
| AddTargetTag (ctx : Context) (target : string)
| AddVersionTag (ctx : Context) (ver : string)
| RecordLatency (ctx : Context)
| LogPrint (entry : LogEntry)
| BucketAvailable                                  (* s.canaryBucket.Available() *)
| BucketTakeAvailable (count : Z)                  (* s.canaryBucket.TakeAvailable(count) *)
| SidecarRoundTrip (outreq : Request)              (* inside s.sidecarProxy.ServeHTTP *)
| ProxyServeHTTP (t : Target) (req : Request)      (* s.mainProxy / s.canaryProxy .ServeHTTP(w, req) *)
| ResponseWriteHeader (code : Z)                   (* w.WriteHeader(code) *)
| ResponseWrite (data : string).                   (* w.Write(data) *)

(** The answer each operation gives back.  The [Add...Tag] functions return
    a context and an error, as in Go. *)
Definition Ans (op : Op) : Type :=
  match op with
  | InitializeLatencyTracking _ => Outcome Context
  | AddReasonTag _ _ | AddTargetTag _ _ | AddVersionTag _ _ =>
      Outcome (Context * option string)
  | RecordLatency _ => Outcome unit
  | LogPrint _ => unit
  | BucketAvailable | BucketTakeAvailable _ => Outcome Z
  | SidecarRoundTrip _ => Outcome SidecarReply
  | ProxyServeHTTP _ _ => Outcome unit
  | ResponseWriteHeader _ | ResponseWrite _ => unit
  end.

(** ** Programs *)

Inductive Prog (R : Type) : Type :=
| Ret (r : R)
| Panic (v : PanicValue)
| Vis (op : Op) (k : Ans op -> Prog R).
Arguments Ret {R} r.
Arguments Panic {R} v.
Arguments Vis {R} op k.

Fixpoint bind {A B : Type} (p : Prog A) (f : A -> Prog B) : Prog B :=
  match p with
  | Ret a => f a
  | Panic v => Panic v
  | Vis op k => Vis op (fun a => bind (k a) f)
  end.

Declare Scope prog_scope.
Delimit Scope prog_scope with prog.
Notation "x <- p ;; q" := (bind p (fun x => q))
  (at level 61, p at next level, right associativity) : prog_scope.
Notation "' pat <- p ;; q" := (bind p (fun x => match x with pat => q end))
  (at level 61, pat pattern, p at next level, right associativity) : prog_scope.
Notation "p ;; q" := (bind p (fun _ => q))
  (at level 61, right associativity) : prog_scope.
Local Open Scope prog_scope.

Definition trigger (op : Op) : Prog (Ans op) := Vis op Ret.

(** A call that panicked unwinds; one that returned goes on with its value. *)
Definition returning {X : Type} (o : Outcome X) : Prog X :=
  match o with
  | Returned x => Ret x
  | Panicked v => Panic v
  end.

(** [defer d] placed at the head of a function body [p]: [d] runs when [p]
    returns and also while a panic of [p] unwinds. *)
Fixpoint defer {A : Type} (d : Prog unit) (p : Prog A) : Prog A :=
  match p with
  | Ret a => d ;; Ret a
  | Panic v => d ;; Panic v
  | Vis op k => Vis op (fun a => defer d (k a))
  end.

(** [defer func() { if r := recover(); r != nil { h r } }()] at the head of
    [p]: a panic of [p] stops there and [h] runs in its place. *)
Fixpoint deferRecover {A : Type} (h : PanicValue -> Prog A) (p : Prog A) : Prog A :=
  match p with
  | Ret a => Ret a
  | Panic v => h v
  | Vis op k => Vis op (fun a => deferRecover h (k a))
  end.

(** ** [server.go] *)

(** [strconv.ParseBool] *)
Definition ParseBool (str : string) : bool * option string :=
  if existsb (String.eqb str) ["1"; "t"; "T"; "TRUE"; "true"; "True"] then (true, None)
  else if existsb (String.eqb str) ["0"; "f"; "F"; "FALSE"; "false"; "False"] then (false, None)
  else (false, Some "invalid syntax").

(** [func convertToBool(boolStr string) (bool, error)] *)
Definition convertToBool (boolStr : string) : bool * option string :=
  if String.eqb boolStr "true" || String.eqb boolStr "false" then ParseBool boolStr
  else (false, Some "neither 'true' nor 'false'").

(** [strings.TrimPrefix] *)
Definition TrimPrefix_ (str pre : string) : string :=
  if prefix pre str then substring (String.length pre) (String.length str - String.length pre) str
  else str.

(** [func trimRequestPathPrefix(reqURL *url.URL, prefix string) string] *)
Definition trimRequestPathPrefix (reqURLPath pre : string) : string :=
  TrimPrefix_ reqURLPath pre.

(** [func setRoutingReason(req, reason, reasonArg...)]; [reason] is the text
    after [fmt.Sprintf] has filled in the arguments, if any. *)
Definition setRoutingReason (req : Request) (reason : string) : Prog Request :=
  o <- trigger (AddReasonTag (Ctx req) reason) ;;
  '(ctx, err) <- returning o ;;
  match err with
  | Some e => trigger (LogPrint (LogText e)) ;; Ret req
  | None => Ret (WithContext req ctx)
  end.

(** [func (s *Server) recordMetricTarget(ctx, target)] *)
Definition recordMetricTarget (s : Server) (ctx : Context) (target : string) : Prog unit :=
  o <- trigger (AddTargetTag ctx target) ;;
  '(ctx, err) <- returning o ;;
  match err with Some e => trigger (LogPrint (LogText e)) | None => Ret tt end ;;
  o <- trigger (AddVersionTag ctx (version s)) ;;
  '(ctx, err) <- returning o ;;
  match err with Some e => trigger (LogPrint (LogText e)) | None => Ret tt end ;;
  o <- trigger (RecordLatency ctx) ;;
  returning o.

(** The body shared by [serveMain] and [serveCanary]: the metric is recorded
    by a deferred call whose context argument is read when [defer] runs. *)
Definition serve (t : Target) (s : Server) (req : Request) : Prog unit :=
  defer (recordMetricTarget s (Ctx req) (target_name t))
    (trigger (LogPrint (LogRouted t req)) ;;
     o <- trigger (ProxyServeHTTP t req) ;;
     returning o).

(** [func (s *Server) serveMain(w, req)] *)
Definition serveMain : Server -> Request -> Prog unit := serve Main.

(** [func (s *Server) serveCanary(w, req)] *)
Definition serveCanary : Server -> Request -> Prog unit := serve Canary.

(** The [ErrorHandler] that [NewServer] installs on the sidecar proxy. *)
Definition sidecarErrorHandler (w : ResponseWriter) (err : string) : ResponseWriter :=
  rw_Write err (rw_WriteHeader StatusSidecarError w).

(** [s.sidecarProxy.ServeHTTP(recorder, outreq)]: the reverse proxy copies the
    status and body of a response into the writer, and calls the error
    handler on a transport error. *)
Definition proxied (recorder : ResponseWriter) (reply : SidecarReply) : ResponseWriter :=
  match reply with
  | Responded code body => rw_Write body (rw_WriteHeader code recorder)
  | TransportFailed err => sidecarErrorHandler recorder err
  end.

Definition sidecarProxy_ServeHTTP (recorder : ResponseWriter) (outreq : Request)
  : Prog ResponseWriter :=
  o <- trigger (SidecarRoundTrip outreq) ;;
  reply <- returning o ;;
  Ret (proxied recorder reply).

(** What [callSidecar] returns once the recorder holds the sidecar's answer. *)
Definition sidecarVerdict (recorder : ResponseWriter) : Z * option string :=
  if Code recorder =? StatusSidecarError
  then (Code recorder, Some (Written recorder))
  else (Code recorder, None).

(** [func (s *Server) callSidecar(req *http.Request) (int, error)].  The Go
    function assigns [req.Body] through the pointer; here the request with
    the body put back is returned next to the two results. *)
Definition callSidecar (s : Server) (req : Request) : Prog (Request * (Z * option string)) :=
  let '(outBody, err) := ReadAll (Body req) in
  let bodyBuffer := outBody in                       (* filled by the TeeReader *)
  let restored := with_Body req (NopCloser bodyBuffer) in   (* the deferred assignment *)
  match err with
  | Some e => Ret (restored, (0, Some e))
  | None =>
      let outreq := with_Body req (NopCloser outBody) in
      recorder <- sidecarProxy_ServeHTTP NewRecorder outreq ;;
      Ret (restored, sidecarVerdict recorder)
  end.

Definition canaryBucket_Available : Prog Z :=
  o <- trigger BucketAvailable ;; returning o.

Definition canaryBucket_TakeAvailable (count : Z) : Prog Z :=
  o <- trigger (BucketTakeAvailable count) ;; returning o.

(** [s.IsCanaryLimited() && s.canaryBucket.Available() <= 0] *)
Definition canaryLimitReached (s : Server) : Prog bool :=
  if IsCanaryLimited s then (n <- canaryBucket_Available ;; Ret (n <=? 0))
  else Ret false.

(** [s.IsCanaryLimited() && s.canaryBucket.TakeAvailable(1) == 0] *)
Definition canaryAdmissionRefused (s : Server) : Prog bool :=
  if IsCanaryLimited s then (n <- canaryBucket_TakeAvailable 1 ;; Ret (n =? 0))
  else Ret false.

(** [http.Error(w, error, code)] *)
Definition http_Error (error : string) (code : Z) : Prog unit :=
  trigger (ResponseWriteHeader code) ;;
  trigger (ResponseWrite (error ++ String "010" EmptyString)).

(** The text [err.Error()] built in the recovery code of [viaProxy]. *)
Definition recoveredError (r : PanicValue) : string :=
  match r with
  | PanicString t => t
  | PanicError message => message
  | PanicOther rendered => "Unknown error: " ++ rendered
  end.


(** The body of the deferred function of [viaProxy] when [recover()] gave [r]. *)
Definition recovered (req : Request) (r : PanicValue) : Prog unit :=
  trigger (LogPrint (LogPanic r req)) ;;
  http_Error (recoveredError r) StatusInternalServerError.

Section Router.

(** Constants and a constructor of package [canaryrouter] that are declared
    outside [server.go]: the two status codes by which the sidecar answers,
    and whether [newReverseProxy target host] succeeds. *)
Variable StatusCodeMain : Z.
Variable StatusCodeCanary : Z.
Variable newReverseProxy : string -> string -> option string.   (* [Some e]: the error *)

(** [func NewServer(config, version)], returning the server or an error *)
Definition NewServer (cfg : Config) (ver : string) : Server + string :=
  match newReverseProxy (MainTarget cfg) (MainHeaderHost cfg) with
  | Some e => inr e
  | None =>
  match newReverseProxy (CanaryTarget cfg) (CanaryHeaderHost cfg) with
  | Some e => inr e
  | None =>
  match (if isSidecarProvided_config cfg then newReverseProxy (SidecarURL cfg) EmptyString else None) with
  | Some e => inr e
  | None =>
      inl {| version := ver;
             config := cfg;
             canaryBucket :=
               if RequestLimitCanary (CircuitBreaker cfg) =? 0 then None
               else Some (NewBucket infinityDuration
                            (int64 (RequestLimitCanary (CircuitBreaker cfg)))) |}
  end end end.

(** The [switch statusCode] of [viaProxyWithSidecar]. *)
Definition routeOnStatus (s : Server) (req : Request) (statusCode : Z) : Prog unit :=
  if statusCode =? StatusCodeMain then
    req <- setRoutingReason req ("Sidecar returns status code " ++ itoa statusCode) ;;
    serveMain s req
  else if statusCode =? StatusCodeCanary then
    refused <- canaryAdmissionRefused s ;;
    if refused then
      req <- setRoutingReason req
               ("Sidecar returns status code " ++ itoa statusCode ++ ", but canary limit reached") ;;
      serveMain s req
    else
      req <- setRoutingReason req ("Sidecar returns status code " ++ itoa statusCode) ;;
      serveCanary s req
  else
    req <- setRoutingReason req ("Sidecar returns non standard status code " ++ itoa statusCode) ;;
    serveMain s req.

(** The handler returned by [func (s *Server) viaProxyWithSidecar()]. *)
Definition viaProxyWithSidecar (s : Server) (req : Request) : Prog unit :=
  reached <- canaryLimitReached s ;;
  if (reached : bool) then
    req <- setRoutingReason req "Canary limit reached" ;;
    serveMain s req
  else
    '(req, (statusCode, err)) <- callSidecar s req ;;
    match err with
    | Some e =>
        req <- setRoutingReason req e ;;
        trigger (LogPrint (LogText ("Error when calling sidecar: " ++ e))) ;;
        serveMain s req
    | None => routeOnStatus s req statusCode
    end.

(** [handlerFunc] as [viaProxy] picks it. *)
Definition handlerFunc (s : Server) : Request -> Prog unit :=
  if negb (isSidecarProvided s) then serveMain s else viaProxyWithSidecar s.

(** The body of the handler returned by [viaProxy], without its deferred
    recovery. *)
Definition pipeline (s : Server) (req : Request) : Prog unit :=
  o <- trigger (InitializeLatencyTracking (Ctx req)) ;;
  ctx <- returning o ;;
  let req := WithContext req ctx in
  let req := with_Path req (trimRequestPathPrefix (Path req) (TrimPrefix (config s))) in
  let xCanaryVal := Header_Get (Header req) "X-Canary" in
  let '(xCanary, err) := convertToBool xCanaryVal in
  match err with
  | None =>
      req <- setRoutingReason req ("Routed via X-Canary header value: " ++ xCanaryVal) ;;
      if xCanary then serveCanary s req else serveMain s req
  | Some _ => handlerFunc s req
  end.

(** The handler returned by [func (s *Server) viaProxy()], which is what
    [ServeHTTP] runs.  The request logged on recovery is the one the handler
    was called with. *)
Definition viaProxy (s : Server) (req : Request) : Prog unit :=
  deferRecover (recovered req) (pipeline s req).

(** [func (s *Server) ServeHTTP(res, req)] *)
Definition ServeHTTP (s : Server) (req : Request) : Prog unit :=
  viaProxy s req.

End Router.

(** ** Running a handler *)

(** The world outside the handler.  [panics] says which calls into the
    instrumentation and the proxies panic instead of returning; the other
    fields give what a call returns.  A backend proxy writes [backend t req]
    to the client's writer and may panic after that (as
    [httputil.ReverseProxy] does when copying a response fails). *)
Record Env : Type := {
  panics : Op -> option PanicValue;
  latencyTracking : Context -> Context;
  reasonTag : Context -> string -> Context * option string;
  targetTag : Context -> string -> Context * option string;
  versionTag : Context -> string -> Context * option string;
  sidecar : Request -> SidecarReply;
  backend : Target -> Request -> list WriterAction
}.

Definition external {X : Type} (env : Env) (op : Op) (x : X) : Outcome X :=
  match panics env op with
  | Some v => Panicked v
  | None => Returned x
  end.

(** A method call through a nil [*ratelimit.Bucket]. *)
Definition nilDereference : PanicValue :=
  PanicError "runtime error: invalid memory address or nil pointer dereference".

(** One operation, on the shared bucket [b] and the writer [w] of the
    request at hand.  The two bucket operations are the only ones that touch
    shared state; each is a single step (the bucket guards them by its
    mutex). *)
Definition interp (env : Env) (op : Op) (b : option Bucket) (w : ResponseWriter)
  : Ans op * (option Bucket * ResponseWriter) :=
  match op as o return Ans o * (option Bucket * ResponseWriter) with
  | InitializeLatencyTracking ctx =>
      (external env (InitializeLatencyTracking ctx) (latencyTracking env ctx), (b, w))
  | AddReasonTag ctx reason =>
      (external env (AddReasonTag ctx reason) (reasonTag env ctx reason), (b, w))
  | AddTargetTag ctx target =>
      (external env (AddTargetTag ctx target) (targetTag env ctx target), (b, w))
  | AddVersionTag ctx ver =>
      (external env (AddVersionTag ctx ver) (versionTag env ctx ver), (b, w))
  | RecordLatency ctx => (external env (RecordLatency ctx) tt, (b, w))
  | LogPrint _ => (tt, (b, w))
  | BucketAvailable =>
      match b with
      | Some bk => (Returned (Available bk), (b, w))
      | None => (Panicked nilDereference, (b, w))
      end
  | BucketTakeAvailable count =>
      match b with
      | Some bk => let '(taken, bk') := TakeAvailable count bk in
                   (Returned taken, (Some bk', w))
      | None => (Panicked nilDereference, (b, w))
      end
  | SidecarRoundTrip outreq =>
      (external env (SidecarRoundTrip outreq) (sidecar env outreq), (b, w))
  | ProxyServeHTTP t req =>
      (external env (ProxyServeHTTP t req) tt, (b, apply_actions (backend env t req) w))
  | ResponseWriteHeader code => (tt, (b, rw_WriteHeader code w))
  | ResponseWrite data => (tt, (b, rw_Write data w))
  end.

(** An operation that was performed, with the answer it got. *)
Record Event : Type := Ev { ev_op : Op; ev_ans : Ans ev_op }.

(** The outcome of running a program: its result, the bucket and the
    writer it leaves behind, and the operations it performed, in order. *)
Record Served (R : Type) : Type := {
  result : Outcome R;
  bucket_after : option Bucket;
  writer_after : ResponseWriter;
  trace : list Event
}.
Arguments result {R} _.
Arguments bucket_after {R} _.
Arguments writer_after {R} _.
Arguments trace {R} _.

(** Runs a program to its end, from the shared bucket [b] and the writer
    [w]: it either returns or lets a panic escape. *)
Fixpoint exec {R : Type} (env : Env) (p : Prog R) (b : option Bucket) (w : ResponseWriter)
  : Served R :=
  match p with
  | Ret r => {| result := Returned r; bucket_after := b; writer_after := w; trace := [] |}
  | Panic v => {| result := Panicked v; bucket_after := b; writer_after := w; trace := [] |}
  | Vis op k =>
      let '(a, (b', w')) := interp env op b w in
      let r := exec env (k a) b' w' in
      {| result := result r; bucket_after := bucket_after r;
         writer_after := writer_after r; trace := Ev op a :: trace r |}
  end.

(** ** What a trace shows *)

Fixpoint choose {A B : Type} (f : A -> option B) (l : list A) : list B :=
  match l with
  | [] => []
  | x :: rest => match f x with
                 | Some y => y :: choose f rest
                 | None => choose f rest
                 end
  end.

(** The backends the request was forwarded to, with the request as sent. *)
Definition dispatches (tr : list Event) : list (Target * Request) :=
  choose (fun e => match ev_op e with
                   | ProxyServeHTTP t req => Some (t, req)
                   | _ => None
                   end) tr.

Definition targets (tr : list Event) : list Target := map fst (dispatches tr).

(** The routing reasons handed to the instrumentation. *)
Definition reasons (tr : list Event) : list string :=
  choose (fun e => match ev_op e with
                   | AddReasonTag _ reason => Some reason
                   | _ => None
                   end) tr.

(** The requests replayed to the decision service. *)
Definition sidecar_calls (tr : list Event) : list Request :=
  choose (fun e => match ev_op e with
                   | SidecarRoundTrip outreq => Some outreq
                   | _ => None
                   end) tr.

Definition is_bucket_op (op : Op) : bool :=
  match op with
  | BucketAvailable | BucketTakeAvailable _ => true
  | _ => false
  end.

(** The operations performed on the canary bucket. *)
Definition bucket_calls (tr : list Event) : list Op :=
  filter is_bucket_op (map ev_op tr).


(** [contains s sub]: [sub] occurs in [s]. *)
Definition contains (s sub : string) : Prop :=
  exists before after, s = before ++ sub ++ after.

(** An environment in which no call panics. *)
Definition calm (env : Env) : Prop := forall op, panics env op = None.

(** ** Goroutines sharing the bucket *)

(** A goroutine serving one request: the request as it came in, what is left
    of its handler, its connection and what it has done. *)
Record Goroutine : Type := {
  inbound : Request;
  rest : Prog unit;
  conn : ResponseWriter;
  performed : list Event
}.

Record Pool : Type := {
  shared : option Bucket;
  goroutines : list Goroutine
}.

(** One goroutine performs the operation at the head of its program, in an
    environment that may differ from step to step. *)
Inductive step : Pool -> Pool -> Prop :=
| step_goroutine :
    forall (env : Env) (b b' : option Bucket) (before after : list Goroutine)
           (g : Goroutine) (op : Op) (k : Ans op -> Prog unit)
           (a : Ans op) (w' : ResponseWriter),
      rest g = Vis op k ->
      interp env op b (conn g) = (a, (b', w')) ->
      step {| shared := b; goroutines := before ++ g :: after |}
           {| shared := b';
              goroutines := before ++
                {| inbound := inbound g; rest := k a; conn := w';
                   performed := performed g ++ [Ev op a] |} :: after |}.

Inductive steps : Pool -> Pool -> Prop :=
| steps_refl : forall p, steps p p
| steps_step : forall p q r, steps p q -> step q r -> steps p r.

Definition tokens (p : Pool) : Z :=
  match shared p with
  | Some bk => availableTokens bk
  | None => 0
  end.

(** A request carries an override when its [X-Canary] header converts. *)
Definition overridden (req : Request) : bool :=
  match snd (convertToBool (Header_Get (Header req) "X-Canary")) with
  | None => true
  | Some _ => false
  end.

Definition is_canary (t : Target) : bool :=
  match t with Canary => true | Main => false end.

(** How often a trace forwards to the canary backend. *)
Definition canary_dispatches (tr : list Event) : nat :=
  List.length (filter is_canary (targets tr)).

(** Whether an answer of [TakeAvailable] reports tokens taken. *)
Definition took (o : Outcome Z) : bool :=
  match o with
  | Returned n => negb (n =? 0)
  | Panicked _ => false
  end.

Definition admitted (e : Event) : bool :=
  match e with
  | Ev op a =>
      match op as o return Ans o -> bool with
      | BucketTakeAvailable _ => took
      | _ => fun _ => false
      end a
  end.

(** How many admissions a trace obtained from the bucket. *)
Definition admissions (tr : list Event) : nat :=
  List.length (filter admitted tr).

Definition sum_over {A : Type} (f : A -> nat) (l : list A) : nat :=
  fold_right (fun x n => (f x + n)%nat) 0%nat l.

(** Canary dispatches of the goroutines whose request carries no override:
    the dispatches that come from a decision of the sidecar. *)
Definition decision_canary_dispatches (p : Pool) : nat :=
  sum_over (fun g => if overridden (inbound g) then 0%nat
                     else canary_dispatches (performed g))
           (goroutines p).

(** Canary dispatches of all goroutines. *)
Definition all_canary_dispatches (p : Pool) : nat :=
  sum_over (fun g => canary_dispatches (performed g)) (goroutines p).

(** [Always P p]: every operation that [p] can perform satisfies [P]. *)
Fixpoint Always {R : Type} (P : Op -> Prop) (p : Prog R) : Prop :=
  match p with
  | Ret _ | Panic _ => True
  | Vis op k => P op /\ forall a, Always P (k a)
  end.

(** [Returns Q p]: every value that [p] can return satisfies [Q]. *)
Fixpoint Returns {R : Type} (Q : R -> Prop) (p : Prog R) : Prop :=
  match p with
  | Ret r => Q r
  | Panic _ => True
  | Vis op k => forall a, Returns Q (k a)
  end.

(** Calls into the instrumentation package and the logger. *)
Definition bookkeeping (op : Op) : Prop :=
  match op with
  | InitializeLatencyTracking _ | AddReasonTag _ _ | AddTargetTag _ _
  | AddVersionTag _ _ | RecordLatency _ | LogPrint _ => True
  | _ => False
  end.

(** Operations that do not call the bucket. *)
Definition leaves_bucket (op : Op) : Prop := is_bucket_op op = false.

(** Operations that neither take from the bucket nor forward to canary. *)
Definition neutral (op : Op) : Prop :=
  match op with
  | BucketTakeAvailable _ | ProxyServeHTTP Canary _ => False
  | _ => True
  end.

(** Tokens are taken one at a time. *)
Definition takes_one (op : Op) : Prop :=
  match op with
  | BucketTakeAvailable count => count = 1
  | _ => True
  end.


(** [Admits n p]: with [n] admissions in hand, [p] forwards to canary only
    by spending one of them, and gains one with each successful take. *)
Fixpoint Admits (n : nat) (p : Prog unit) : Prop :=
  match p with
  | Ret _ | Panic _ => True
  | Vis op k =>
      match op as o return (Ans o -> Prog unit) -> Prop with
      | ProxyServeHTTP Canary _ =>
          fun k => (0 < n)%nat /\ forall a, Admits (n - 1) (k a)
      | BucketTakeAvailable _ =>
          fun k => forall a, Admits (if took a then S n else n) (k a)
      | _ => fun k => forall a, Admits n (k a)
      end k
  end.

(** One step of goroutine number [i], as a function. *)
Definition advance (env : Env) (p : Pool) (i : nat) : Pool :=
  match nth_error (goroutines p) i with
  | Some g =>
      match rest g with
      | Vis op k =>
          let '(a, (b', w')) := interp env op (shared p) (conn g) in
          {| shared := b';
             goroutines := firstn i (goroutines p) ++
               {| inbound := inbound g; rest := k a; conn := w';
                  performed := performed g ++ [Ev op a] |} ::
               skipn (S i) (goroutines p) |}
      | _ => p
      end
  | None => p
  end.

(** Runs the goroutines in the order a schedule names them. *)
Definition schedule (env : Env) (order : list nat) (p : Pool) : Pool :=
  fold_left (advance env) order p.

Section Spawn.

Variable StatusCodeMain : Z.
Variable StatusCodeCanary : Z.

(** A request served from the bucket [b] on a fresh connection. *)
Definition serving (env : Env) (s : Server) (req : Request) (b : option Bucket)
  : Served unit :=
  exec env (ServeHTTP StatusCodeMain StatusCodeCanary s req) b NewRecorder.

(** One goroutine per request, all started on the server as constructed. *)
Definition spawn (s : Server) (reqs : list Request) : Pool :=
  {| shared := canaryBucket s;
     goroutines :=
       map (fun req => {| inbound := req;
                          rest := ServeHTTP StatusCodeMain StatusCodeCanary s req;
                          conn := NewRecorder;
                          performed := [] |}) reqs |}.

(** Requests served one after the other, each from the bucket the previous
    one left. *)
Fixpoint serve_in_turn (env : Env) (s : Server) (reqs : list Request)
    (b : option Bucket) : list (Served unit) :=
  match reqs with
  | [] => []
  | req :: later =>
      let r := serving env s req b in
      r :: serve_in_turn env s later (bucket_after r)
  end.

End Spawn.

(** ** A deployment to run the model on *)

(** A world in which the sidecar gives [reply], each backend answers 200
    with its own name, and the calls that [panicking] names panic. *)
Definition demo_world (reply : SidecarReply) (panicking : Op -> option PanicValue)
  : Env := {|
  panics := panicking;
  latencyTracking := fun ctx => ("latency", "started") :: ctx;
  reasonTag := fun ctx reason => (("reason", reason) :: ctx, None);
  targetTag := fun ctx target => (("target", target) :: ctx, None);
  versionTag := fun ctx ver => (("version", ver) :: ctx, None);
  sidecar := fun _ => reply;
  backend := fun t _ => [DoWriteHeader 200; DoWrite (target_name t)]
|}.

Definition never : Op -> option PanicValue := fun _ => None.

(** The sidecar answers 200 and nothing panics. *)
Definition demo_env : Env := demo_world (Responded 200 "canary please") never.



Definition demo_config (sidecarURL : string) (limit : Z) : Config := {|
  MainTarget := "http://main.internal";
  MainHeaderHost := EmptyString;
  CanaryTarget := "http://canary.internal";
  CanaryHeaderHost := EmptyString;
  SidecarURL := sidecarURL;
  TrimPrefix := "/api";
  CircuitBreaker := {| RequestLimitCanary := limit |}
|}.

Definition demo_server (sidecarURL : string) (limit : Z) : Server := {|
  version := "v1";
  config := demo_config sidecarURL limit;
  canaryBucket := if limit =? 0 then None
                  else Some (NewBucket infinityDuration (int64 limit))
|}.

Definition demo_request (xCanary : list string) : Request := {|
  Path := "/api/v1/orders";
  Header := map (fun v => ("X-Canary", [v])) xCanary;
  Body := {| content := [Byte.x7b; Byte.x7d]; failure := None |};
  Ctx := []
|}.

(** A request whose body breaks off after its first byte. *)
Definition demo_truncated_request : Request := {|
  Path := "/api/v1/orders";
  Header := [];
  Body := {| content := [Byte.x7b]; failure := Some "unexpected EOF" |};
  Ctx := []
|}.

(** The sidecar codes used when the model is run: 204 for main, 200 for
    canary. *)
Definition demo_main_code : Z := 204.
Definition demo_canary_code : Z := 200.

Definition demo_sidecar_url : string := "http://sidecar.internal".

(** Every target URL parses. *)
Definition demo_newReverseProxy : string -> string -> option string :=
  fun _ _ => None.

(** A bucket of capacity 1 with [n] tokens left. *)
Definition demo_bucket (n : Z) : Bucket :=
  {| fillInterval := infinityDuration; capacity := 1; availableTokens := n |}.

(** Two goroutines on a limit of 1: both pass the pre-check before either
    reaches the admission. *)
Definition racing_order : list nat :=
  ([0; 0; 1; 1] ++ repeat 0 8 ++ repeat 1 8)%list%nat.

(** ** Reasoning about runs *)

(** [r1] followed by the run that [next] starts from where [r1] ended. *)
Definition followed_by {A B : Type} (r1 : Served A)
    (next : A -> option Bucket -> ResponseWriter -> Served B) : Served B :=
  match result r1 with
  | Returned a =>
      let r2 := next a (bucket_after r1) (writer_after r1) in
      {| result := result r2; bucket_after := bucket_after r2;
         writer_after := writer_after r2; trace := trace r1 ++ trace r2 |}
  | Panicked v =>
      {| result := Panicked v; bucket_after := bucket_after r1;
         writer_after := writer_after r1; trace := trace r1 |}
  end.

(** [r1] followed by a deferred call, which runs whatever [r1] ended in. *)
Definition unwound_through {A : Type} (r1 : Served A)
    (deferred : option Bucket -> ResponseWriter -> Served unit) : Served A :=
  let r2 := deferred (bucket_after r1) (writer_after r1) in
  {| result := match result r2 with
               | Returned _ => result r1
               | Panicked v => Panicked v
               end;
     bucket_after := bucket_after r2;
     writer_after := writer_after r2;
     trace := trace r1 ++ trace r2 |}.

(** A run that returned [x], left [b] and [w], forwarded to [ds], tagged the
    reasons [rs], replayed [scs] to the sidecar and called the bucket with
    [bcs]. *)
Definition yields {R : Type} (r : Served R) (x : R) (b : option Bucket)
    (w : ResponseWriter) (ds : list (Target * Request)) (rs : list string)
    (scs : list Request) (bcs : list Op) : Prop :=
  result r = Returned x /\ bucket_after r = b /\ writer_after r = w /\
  dispatches (trace r) = ds /\ reasons (trace r) = rs /\
  sidecar_calls (trace r) = scs /\ bucket_calls (trace r) = bcs.

(** The calls on the bucket that the pre-check and the admission make. *)
Definition precheck_calls (s : Server) : list Op :=
  if IsCanaryLimited s then [BucketAvailable] else [].

Definition admission_calls (s : Server) : list Op :=
  if IsCanaryLimited s then [BucketTakeAvailable 1] else [].

(** The pre-check lets the request through. *)
Definition precheck_passes (s : Server) (b : option Bucket) : Prop :=
  IsCanaryLimited s = false \/
  exists bk, b = Some bk /\ 0 < availableTokens bk.

(** The bucket after one token has been taken. *)
Definition spend (bk : Bucket) : Bucket :=
  {| fillInterval := fillInterval bk; capacity := capacity bk;
     availableTokens := availableTokens bk - 1 |}.

(** The admission goes through: no quota, or a token is there to take. *)
Definition admission_succeeds (s : Server) (b : option Bucket) : Prop :=
  IsCanaryLimited s = false \/
  exists bk, b = Some bk /\ 0 < availableTokens bk.

(** The bucket that a successful admission leaves. *)
Definition after_admission (s : Server) (b : option Bucket) : option Bucket :=
  if IsCanaryLimited s then option_map spend b else b.

(** The request as [callSidecar] leaves it: the body is a reader over the
    bytes that were read. *)
Definition replayable (req : Request) : Request :=
  with_Body req (NopCloser (content (Body req))).

(** The request as [viaProxy] passes it on: with the latency context and
    the trimmed path. *)
Definition prepared (env : Env) (s : Server) (req : Request) : Request :=
  with_Path (WithContext req (latencyTracking env (Ctx req)))
            (trimRequestPathPrefix (Path req) (TrimPrefix (config s))).

(** A run that returned after forwarding once, to [t], a request that is
    [req] up to its context, with the single reason [reason]; the client got
    what that backend wrote. *)
Definition forwards (env : Env) (r : Served unit) (b' : option Bucket)
    (w : ResponseWriter) (t : Target) (reason : string) (req : Request)
    (scs : list Request) (bcs : list Op) : Prop :=
  exists req',
    yields r tt b' (apply_actions (backend env t req') w) [(t, req')] [reason] scs bcs /\
    Body req' = Body req /\ Path req' = Path req /\ Header req' = Header req.

(** [permits P c]: [P] allows every operation the handler may perform for a
    request whose body holds the bytes [c]. *)
Definition permits (P : Op -> Prop) (c : list Byte.byte) : Prop :=
  (forall op, bookkeeping op -> P op) /\
  P BucketAvailable /\ P (BucketTakeAvailable 1) /\
  (forall code, P (ResponseWriteHeader code)) /\
  (forall data, P (ResponseWrite data)) /\
  (forall outreq, Body outreq = NopCloser c -> P (SidecarRoundTrip outreq)) /\
  (forall t req, content (Body req) = c -> P (ProxyServeHTTP t req)).

(** [permits_override P]: [P] allows every operation the handler may
    perform for a request that carries an override. *)
Definition permits_override (P : Op -> Prop) : Prop :=
  (forall op, bookkeeping op -> P op) /\
  (forall code, P (ResponseWriteHeader code)) /\
  (forall data, P (ResponseWrite data)) /\
  (forall t req, P (ProxyServeHTTP t req)).

(** [req'] is [req] up to its context. *)
Definition same_payload (req req' : Request) : Prop :=
  Body req' = Body req /\ Path req' = Path req /\ Header req' = Header req.

(** Admissions obtained by all goroutines together. *)
Definition total_admissions (p : Pool) : nat :=
  sum_over (fun g => admissions (performed g)) (goroutines p).

(** What holds of every goroutine of a run: it takes tokens one at a time,
    and if its request carries no override, its canary dispatches and the
    admissions it still holds add up to the admissions it obtained. *)
Definition GoroutineInv (g : Goroutine) : Prop :=
  Always takes_one (rest g) /\
  (overridden (inbound g) = false ->
   exists n, Admits n (rest g) /\
             (canary_dispatches (performed g) + n = admissions (performed g))%nat).

(** What holds of every pool of a run on a bucket of capacity [N]: the
    tokens left and the admissions obtained add up to [N]. *)
Definition PoolInv (N : Z) (p : Pool) : Prop :=
  (exists bk, shared p = Some bk /\ 0 <= availableTokens bk /\
              availableTokens bk + Z.of_nat (total_admissions p) = N) /\
  Forall GoroutineInv (goroutines p).

(** ** What the handler may do for a request *)

(** [r] is [req] as the handler hands it on: the path trimmed, the headers
    and the bytes of the body as they came in. *)
Definition handed_over (s : Server) (req r : Request) : Prop :=
  Path r = trimRequestPathPrefix (Path req) (TrimPrefix (config s)) /\
  Header r = Header req /\
  content (Body r) = content (Body req).

(** The operations the handler of [s] may perform for [req]: the bucket only
    behind [IsCanaryLimited], the sidecar only when it is configured and no
    override is present, and backends and sidecar only with the request as
    handed on. *)
Definition footprint (s : Server) (req : Request) (op : Op) : Prop :=
  match op with
  | BucketAvailable =>
      IsCanaryLimited s = true /\ isSidecarProvided s = true /\ overridden req = false
  | BucketTakeAvailable count =>
      count = 1 /\ IsCanaryLimited s = true /\ isSidecarProvided s = true /\
      overridden req = false
  | SidecarRoundTrip outreq =>
      isSidecarProvided s = true /\ overridden req = false /\
      handed_over s req outreq /\ failure (Body outreq) = None
  | ProxyServeHTTP _ r => handed_over s req r
  | AddTargetTag _ target => target = "main" \/ target = "canary"
  | AddVersionTag _ ver => ver = version s
  | _ => True
  end.

(** A bucket call that was answered by the nil-pointer panic. *)
Definition nil_dereferenced (e : Event) : bool :=
  match e with
  | Ev op a =>
      match op as o return Ans o -> bool with
      | BucketAvailable | BucketTakeAvailable _ =>
          fun a => match a with Panicked _ => true | Returned _ => false end
      | _ => fun _ => false
      end a
  end.

(** The shared bucket exists whenever the server says it is limited. *)
Definition consistent (s : Server) (b : option Bucket) : Prop :=
  IsCanaryLimited s = true -> exists bk, b = Some bk.

(** Operations other than a dispatch, the calls of [recordMetricTarget] and
    a take from the bucket. *)
Definition prefix_op (op : Op) : Prop :=
  match op with
  | ProxyServeHTTP _ _ | AddTargetTag _ _ | AddVersionTag _ _ | RecordLatency _
  | BucketTakeAvailable _ => False
  | _ => True
  end.

(** Operations other than a dispatch and a target tag. *)
Definition not_dispatch (op : Op) : Prop :=
  match op with
  | ProxyServeHTTP _ _ | AddTargetTag _ _ => False
  | _ => True
  end.

(** Operations that leave the tokens of the bucket as they are. *)
Definition keeps_tokens (op : Op) : Prop :=
  match op with
  | BucketTakeAvailable _ => False
  | _ => True
  end.

(** The target names handed to [instrumentation.AddTargetTag]. *)
Definition tagged_targets (tr : list Event) : list string :=
  choose (fun e => match ev_op e with
                   | AddTargetTag _ target => Some target
                   | _ => None
                   end) tr.

(** The versions handed to [instrumentation.AddVersionTag]. *)
Definition tagged_versions (tr : list Event) : list string :=
  choose (fun e => match ev_op e with
                   | AddVersionTag _ ver => Some ver
                   | _ => None
                   end) tr.

(** At most one dispatch, and the target tags name the backends dispatched
    to. *)
Definition dispatches_once_and_tags (p : Prog unit) : Prop :=
  forall env b w,
    (List.length (dispatches (trace (exec env p b w))) <= 1)%nat /\
    tagged_targets (trace (exec env p b w)) =
      map target_name (targets (trace (exec env p b w))).

(** A run that took nothing from the bucket. *)
Definition takes_nothing (p : Prog unit) : Prop :=
  forall env b w,
    admissions (trace (exec env p b w)) = 0%nat /\ bucket_after (exec env p b w) = b.

(** A run that took nothing, or took one token from a bucket that had one. *)
Definition takes_at_most_one (p : Prog unit) : Prop :=
  forall env b w,
    (admissions (trace (exec env p b w)) = 0%nat /\ bucket_after (exec env p b w) = b) \/
    (admissions (trace (exec env p b w)) = 1%nat /\
     exists bk, b = Some bk /\ 0 < availableTokens bk /\
                bucket_after (exec env p b w) = Some (spend bk)).

(** ** Properties *)

Lemma convertToBool_true : convertToBool "true" = (true, None).
Proof. reflexivity. Qed.

Lemma convertToBool_false : convertToBool "false" = (false, None).
Proof. reflexivity. Qed.

Lemma convertToBool_other :
  forall v, v <> "true" -> v <> "false" ->
            convertToBool v = (false, Some "neither 'true' nor 'false'").
Proof.
  intros v Ht Hf. unfold convertToBool.
  apply String.eqb_neq in Ht. apply String.eqb_neq in Hf.
  rewrite Ht, Hf. reflexivity.
Qed.

Lemma convertToBool_accepts :
  forall v x, convertToBool v = (x, None) ->
              (v = "true" /\ x = true) \/ (v = "false" /\ x = false).
Proof.
  intros v x. unfold convertToBool.
  destruct (String.eqb_spec v "true") as [-> | Ht].
  - cbn. intros H. inversion H. auto.
  - destruct (String.eqb_spec v "false") as [-> | Hf].
    + cbn. intros H. inversion H. auto.
    + cbn. discriminate.
Qed.

Lemma append_empty_r : forall s : string, s ++ EmptyString = s.
Proof.
  induction s as [| c s IH]; cbn; [reflexivity | rewrite IH; reflexivity].
Qed.

Lemma append_assoc_ :
  forall s1 s2 s3 : string, (s1 ++ s2) ++ s3 = s1 ++ (s2 ++ s3).
Proof.
  intros s1 s2 s3. induction s1 as [| c s1 IH]; cbn; [reflexivity |].
  rewrite IH. reflexivity.
Qed.

Lemma contains_suffix : forall before sub, contains (before ++ sub) sub.
Proof.
  intros before sub. exists before, EmptyString.
  rewrite append_empty_r. reflexivity.
Qed.

Lemma contains_prefixed :
  forall s sub before, contains s sub -> contains (before ++ s) sub.
Proof.
  intros s sub before (b1 & a1 & ->).
  exists (before ++ b1), a1. rewrite append_assoc_. reflexivity.
Qed.



Lemma choose_app :
  forall (A B : Type) (f : A -> option B) (l1 l2 : list A),
    choose f (l1 ++ l2) = (choose f l1 ++ choose f l2)%list.
Proof.
  intros A B f l1 l2. induction l1 as [| x l1 IH]; cbn.
  - reflexivity.
  - destruct (f x); cbn; rewrite IH; reflexivity.
Qed.

Lemma dispatches_app : forall t1 t2, dispatches (t1 ++ t2) = (dispatches t1 ++ dispatches t2)%list.
Proof. intros. apply choose_app. Qed.

Lemma targets_app : forall t1 t2, targets (t1 ++ t2) = (targets t1 ++ targets t2)%list.
Proof. intros. unfold targets. rewrite dispatches_app. apply map_app. Qed.

Lemma reasons_app : forall t1 t2, reasons (t1 ++ t2) = (reasons t1 ++ reasons t2)%list.
Proof. intros. apply choose_app. Qed.

Lemma sidecar_calls_app :
  forall t1 t2, sidecar_calls (t1 ++ t2) = (sidecar_calls t1 ++ sidecar_calls t2)%list.
Proof. intros. apply choose_app. Qed.


Lemma bucket_calls_app :
  forall t1 t2, bucket_calls (t1 ++ t2) = (bucket_calls t1 ++ bucket_calls t2)%list.
Proof. intros. unfold bucket_calls. rewrite map_app. apply filter_app. Qed.

Lemma exec_bind :
  forall (A B : Type) (env : Env) (p : Prog A) (f : A -> Prog B) b w,
    exec env (bind p f) b w =
    followed_by (exec env p b w) (fun a b' w' => exec env (f a) b' w').
Proof.
  intros A B env p f. induction p as [a | v | op k IH]; intros b w.
  - cbn. destruct (exec env (f a) b w); reflexivity.
  - reflexivity.
  - cbn. destruct (interp env op b w) as [a [b' w']].
    rewrite IH. unfold followed_by. cbn.
    destruct (result (exec env (k a) b' w')); reflexivity.
Qed.

Lemma exec_defer :
  forall (A : Type) (env : Env) (d : Prog unit) (p : Prog A) b w,
    exec env (defer d p) b w =
    unwound_through (exec env p b w) (fun b' w' => exec env d b' w').
Proof.
  intros A env d p. induction p as [a | v | op k IH]; intros b w.
  - cbn. rewrite exec_bind. unfold followed_by, unwound_through. cbn.
    destruct (result (exec env d b w)); cbn; rewrite ?app_nil_r; reflexivity.
  - cbn. rewrite exec_bind. unfold followed_by, unwound_through. cbn.
    destruct (result (exec env d b w)); cbn; rewrite ?app_nil_r; reflexivity.
  - cbn. destruct (interp env op b w) as [a [b' w']].
    rewrite IH. reflexivity.
Qed.

Lemma exec_deferRecover :
  forall (A : Type) (env : Env) (h : PanicValue -> Prog A) (p : Prog A) b w,
    exec env (deferRecover h p) b w =
    match result (exec env p b w) with
    | Returned _ => exec env p b w
    | Panicked v =>
        let r1 := exec env p b w in
        let r2 := exec env (h v) (bucket_after r1) (writer_after r1) in
        {| result := result r2; bucket_after := bucket_after r2;
           writer_after := writer_after r2; trace := trace r1 ++ trace r2 |}
    end.
Proof.
  intros A env h p. induction p as [a | v | op k IH]; intros b w.
  - reflexivity.
  - cbn. destruct (exec env (h v) b w); reflexivity.
  - cbn. destruct (interp env op b w) as [a [b' w']].
    rewrite IH.
    destruct (exec env (k a) b' w') as [res b2 w2 tr]. cbn.
    destruct res; reflexivity.
Qed.

Lemma yields_bind :
  forall (A B : Type) (env : Env) (p : Prog A) (f : A -> Prog B) b w
         a b1 w1 ds1 rs1 scs1 bcs1 x b2 w2 ds2 rs2 scs2 bcs2,
    yields (exec env p b w) a b1 w1 ds1 rs1 scs1 bcs1 ->
    yields (exec env (f a) b1 w1) x b2 w2 ds2 rs2 scs2 bcs2 ->
    yields (exec env (bind p f) b w) x b2 w2
           (ds1 ++ ds2) (rs1 ++ rs2) (scs1 ++ scs2) (bcs1 ++ bcs2).
Proof.
  intros A B env p f b w a b1 w1 ds1 rs1 scs1 bcs1 x b2 w2 ds2 rs2 scs2 bcs2.
  intros (Hr & Hb & Hw & Hd & Hrs & Hs & Hbc) (Hr2 & Hb2 & Hw2 & Hd2 & Hrs2 & Hs2 & Hbc2).
  rewrite exec_bind. unfold followed_by. rewrite Hr, Hb, Hw. unfold yields.
  cbn [result bucket_after writer_after trace].
  rewrite dispatches_app, reasons_app, sidecar_calls_app, bucket_calls_app.
  repeat split; congruence.
Qed.

Lemma yields_defer :
  forall (A : Type) (env : Env) (d : Prog unit) (p : Prog A) b w
         a b1 w1 ds1 rs1 scs1 bcs1 b2 w2 ds2 rs2 scs2 bcs2,
    yields (exec env p b w) a b1 w1 ds1 rs1 scs1 bcs1 ->
    yields (exec env d b1 w1) tt b2 w2 ds2 rs2 scs2 bcs2 ->
    yields (exec env (defer d p) b w) a b2 w2
           (ds1 ++ ds2) (rs1 ++ rs2) (scs1 ++ scs2) (bcs1 ++ bcs2).
Proof.
  intros A env d p b w a b1 w1 ds1 rs1 scs1 bcs1 b2 w2 ds2 rs2 scs2 bcs2.
  intros (Hr & Hb & Hw & Hd & Hrs & Hs & Hbc) (Hr2 & Hb2 & Hw2 & Hd2 & Hrs2 & Hs2 & Hbc2).
  rewrite exec_defer. unfold unwound_through. rewrite Hb, Hw. unfold yields.
  cbn [result bucket_after writer_after trace].
  rewrite Hr2.
  rewrite dispatches_app, reasons_app, sidecar_calls_app, bucket_calls_app.
  repeat split; congruence.
Qed.

Lemma yields_deferRecover :
  forall (A : Type) (env : Env) (h : PanicValue -> Prog A) (p : Prog A) b w
         a b1 w1 ds rs scs bcs,
    yields (exec env p b w) a b1 w1 ds rs scs bcs ->
    yields (exec env (deferRecover h p) b w) a b1 w1 ds rs scs bcs.
Proof.
  intros A env h p b w a b1 w1 ds rs scs bcs H.
  rewrite exec_deferRecover. destruct H as (Hr & H). rewrite Hr.
  split; assumption.
Qed.

Lemma sidecarVerdict_responded :
  forall code body,
    sidecarVerdict (proxied NewRecorder (Responded code body)) =
    if code =? StatusSidecarError then (code, Some body) else (code, None).
Proof. reflexivity. Qed.

Section Sequential.

Variable StatusCodeMain : Z.
Variable StatusCodeCanary : Z.
Variable env : Env.
Hypothesis Hcalm : calm env.

Local Abbreviation routeOnStatus := (routeOnStatus StatusCodeMain StatusCodeCanary).
Local Abbreviation viaProxyWithSidecar := (viaProxyWithSidecar StatusCodeMain StatusCodeCanary).
Local Abbreviation handlerFunc := (handlerFunc StatusCodeMain StatusCodeCanary).
Local Abbreviation pipeline := (pipeline StatusCodeMain StatusCodeCanary).
Local Abbreviation viaProxy := (viaProxy StatusCodeMain StatusCodeCanary).

Ltac returns_normally := unfold external; rewrite ?Hcalm.

Lemma yields_setRoutingReason :
  forall req reason b w,
  exists req',
    yields (exec env (setRoutingReason req reason) b w) req' b w [] [reason] [] [] /\
    Body req' = Body req /\ Path req' = Path req /\ Header req' = Header req.
Proof.
  intros req reason b w. unfold setRoutingReason. cbn. returns_normally.
  destruct (reasonTag env (Ctx req) reason) as [ctx [e |]]; cbn.
  - exists req. unfold yields. cbn. repeat split.
  - exists (WithContext req ctx). unfold yields. cbn. repeat split.
Qed.

Lemma yields_recordMetricTarget :
  forall s ctx target b w,
    yields (exec env (recordMetricTarget s ctx target) b w) tt b w [] [] [] [].
Proof.
  intros s ctx target b w. unfold recordMetricTarget. cbn. returns_normally.
  destruct (targetTag env ctx target) as [ctx1 [e1 |]]; cbn; returns_normally;
    destruct (versionTag env ctx1 (version s)) as [ctx2 [e2 |]]; cbn; returns_normally;
    unfold yields; cbn; repeat split.
Qed.

Lemma yields_serve :
  forall t s req b w,
    yields (exec env (serve t s req) b w) tt b (apply_actions (backend env t req) w)
           [(t, req)] [] [] [].
Proof.
  intros t s req b w. unfold serve.
  change (@nil Op) with (@nil Op ++ @nil Op)%list.
  change (@nil Request) with (@nil Request ++ @nil Request)%list.
  change (@nil string) with (@nil string ++ @nil string)%list.
  change [(t, req)] with ([(t, req)] ++ [])%list.
  eapply yields_defer.
  - cbn. returns_normally. unfold yields. cbn. repeat split.
  - apply yields_recordMetricTarget.
Qed.

Lemma yields_callSidecar_unreadable :
  forall s req e b w,
    failure (Body req) = Some e ->
    yields (exec env (callSidecar s req) b w)
           (with_Body req (NopCloser (content (Body req))), (0, Some e))
           b w [] [] [] [].
Proof.
  intros s req e b w He. unfold callSidecar, ReadAll. rewrite He.
  unfold yields. cbn. repeat split.
Qed.

Lemma yields_callSidecar :
  forall s req b w,
    failure (Body req) = None ->
    let outreq := with_Body req (NopCloser (content (Body req))) in
    yields (exec env (callSidecar s req) b w)
           (outreq, sidecarVerdict (proxied NewRecorder (sidecar env outreq)))
           b w [] [] [outreq] [].
Proof.
  intros s req b w He. unfold callSidecar, ReadAll. rewrite He.
  cbn. returns_normally. unfold yields. cbn. repeat split.
Qed.

Lemma yields_canaryLimitReached_exhausted :
  forall s bk w,
    IsCanaryLimited s = true -> availableTokens bk <= 0 ->
    yields (exec env (canaryLimitReached s) (Some bk) w) true (Some bk) w
           [] [] [] [BucketAvailable].
Proof.
  intros s bk w Hl Hz. unfold canaryLimitReached. rewrite Hl. cbn.
  unfold yields, Available. cbn. repeat split.
  f_equal. apply Z.leb_le. exact Hz.
Qed.

Lemma yields_canaryLimitReached_passes :
  forall s b w,
    precheck_passes s b ->
    yields (exec env (canaryLimitReached s) b w) false b w [] [] [] (precheck_calls s).
Proof.
  intros s b w Hp. unfold canaryLimitReached, precheck_calls.
  destruct (IsCanaryLimited s) eqn:Hl.
  - destruct Hp as [Hp | (bk & -> & Hpos)]; [congruence |].
    cbn. unfold yields, Available. cbn. repeat split.
    f_equal. apply Z.leb_gt. exact Hpos.
  - unfold yields. cbn. repeat split.
Qed.

Lemma TakeAvailable_one_available :
  forall bk, 0 < availableTokens bk -> TakeAvailable 1 bk = (1, spend bk).
Proof.
  intros bk H. unfold TakeAvailable, spend.
  replace (0 <? availableTokens bk) with true by (symmetry; apply Z.ltb_lt; exact H).
  cbn. replace (Z.min 1 (availableTokens bk)) with 1 by lia. reflexivity.
Qed.

Lemma TakeAvailable_one_exhausted :
  forall bk, availableTokens bk <= 0 -> TakeAvailable 1 bk = (0, bk).
Proof.
  intros bk H. unfold TakeAvailable.
  replace (0 <? availableTokens bk) with false by (symmetry; apply Z.ltb_ge; exact H).
  reflexivity.
Qed.

Lemma yields_canaryAdmissionRefused_admits :
  forall s b w,
    admission_succeeds s b ->
    yields (exec env (canaryAdmissionRefused s) b w) false (after_admission s b) w
           [] [] [] (admission_calls s).
Proof.
  intros s b w Hp. unfold admission_succeeds in Hp.
  unfold canaryAdmissionRefused, admission_calls, after_admission.
  destruct (IsCanaryLimited s) eqn:Hl.
  - destruct Hp as [Hp | (bk & -> & Hpos)]; [congruence |].
    cbn. rewrite (TakeAvailable_one_available bk Hpos).
    unfold yields. cbn. repeat split.
  - unfold yields. cbn. repeat split.
Qed.

Lemma yields_canaryAdmissionRefused_refuses :
  forall s bk w,
    IsCanaryLimited s = true -> availableTokens bk <= 0 ->
    yields (exec env (canaryAdmissionRefused s) (Some bk) w) true (Some bk) w
           [] [] [] [BucketTakeAvailable 1].
Proof.
  intros s bk w Hl Hz. unfold canaryAdmissionRefused. rewrite Hl.
  cbn. rewrite (TakeAvailable_one_exhausted bk Hz).
  unfold yields. cbn. repeat split.
Qed.

Lemma forwards_route :
  forall t s req reason b w,
    forwards env (exec env (req1 <- setRoutingReason req reason ;; serve t s req1) b w)
             b w t reason req [] [].
Proof.
  intros t s req reason b w.
  destruct (yields_setRoutingReason req reason b w) as (req' & Hy & Hsame).
  exists req'. split; [| exact Hsame].
  change [(t, req')] with ([] ++ [(t, req')])%list.
  change [reason] with ([reason] ++ [])%list.
  change (@nil Op) with (@nil Op ++ @nil Op)%list.
  change (@nil Request) with (@nil Request ++ @nil Request)%list.
  eapply yields_bind; [exact Hy | apply yields_serve].
Qed.

(** A silent prefix (no dispatch, no reason, nothing written) before a
    forwarding run. *)
Lemma forwards_bind :
  forall (A : Type) (p : Prog A) (f : A -> Prog unit) b w a b1 scs1 bcs1
         b2 t reason req scs2 bcs2,
    yields (exec env p b w) a b1 w [] [] scs1 bcs1 ->
    forwards env (exec env (f a) b1 w) b2 w t reason req scs2 bcs2 ->
    forwards env (exec env (bind p f) b w) b2 w t reason req
             (scs1 ++ scs2) (bcs1 ++ bcs2).
Proof.
  intros A p f b w a b1 scs1 bcs1 b2 t reason req scs2 bcs2 Hp (req' & Hy & Hsame).
  exists req'. split; [| exact Hsame].
  change [(t, req')] with ([] ++ [(t, req')])%list.
  change [reason] with ([] ++ [reason])%list.
  eapply yields_bind; [exact Hp | exact Hy].
Qed.

(** *** The switch on the status code *)

Lemma routeOnStatus_main :
  forall s req b w,
    forwards env (exec env (routeOnStatus s req StatusCodeMain) b w) b w Main
             ("Sidecar returns status code " ++ itoa StatusCodeMain) req [] [].
Proof.
  intros s req b w. unfold routeOnStatus. rewrite Z.eqb_refl.
  apply forwards_route.
Qed.

Lemma routeOnStatus_canary_admitted :
  forall s req b w,
    StatusCodeCanary <> StatusCodeMain ->
    admission_succeeds s b ->
    forwards env (exec env (routeOnStatus s req StatusCodeCanary) b w)
             (after_admission s b) w Canary
             ("Sidecar returns status code " ++ itoa StatusCodeCanary) req
             [] (admission_calls s).
Proof.
  intros s req b w Hne Hadm. unfold routeOnStatus.
  apply Z.eqb_neq in Hne. rewrite Hne, Z.eqb_refl.
  change (@nil Request) with (@nil Request ++ @nil Request)%list.
  rewrite <- (app_nil_r (admission_calls s)).
  eapply forwards_bind.
  - apply yields_canaryAdmissionRefused_admits. exact Hadm.
  - cbn beta iota. apply forwards_route.
Qed.

Lemma routeOnStatus_canary_refused :
  forall s req bk w,
    StatusCodeCanary <> StatusCodeMain ->
    IsCanaryLimited s = true -> availableTokens bk <= 0 ->
    forwards env (exec env (routeOnStatus s req StatusCodeCanary) (Some bk) w)
             (Some bk) w Main
             ("Sidecar returns status code " ++ itoa StatusCodeCanary ++
              ", but canary limit reached") req
             [] [BucketTakeAvailable 1].
Proof.
  intros s req bk w Hne Hl Hz. unfold routeOnStatus.
  apply Z.eqb_neq in Hne. rewrite Hne, Z.eqb_refl.
  change (@nil Request) with (@nil Request ++ @nil Request)%list.
  change [BucketTakeAvailable 1] with ([BucketTakeAvailable 1] ++ [])%list.
  eapply forwards_bind.
  - apply yields_canaryAdmissionRefused_refuses; assumption.
  - cbn beta iota. apply forwards_route.
Qed.

Lemma routeOnStatus_other :
  forall s req statusCode b w,
    statusCode <> StatusCodeMain -> statusCode <> StatusCodeCanary ->
    forwards env (exec env (routeOnStatus s req statusCode) b w) b w Main
             ("Sidecar returns non standard status code " ++ itoa statusCode) req [] [].
Proof.
  intros s req statusCode b w Hm Hc. unfold routeOnStatus.
  apply Z.eqb_neq in Hm. apply Z.eqb_neq in Hc. rewrite Hm, Hc.
  apply forwards_route.
Qed.

(** *** The handler with a sidecar *)

Lemma viaProxyWithSidecar_exhausted :
  forall s req bk w,
    IsCanaryLimited s = true -> availableTokens bk <= 0 ->
    forwards env (exec env (viaProxyWithSidecar s req) (Some bk) w) (Some bk) w Main
             "Canary limit reached" req [] [BucketAvailable].
Proof.
  intros s req bk w Hl Hz. unfold viaProxyWithSidecar.
  change (@nil Request) with (@nil Request ++ @nil Request)%list.
  change [BucketAvailable] with ([BucketAvailable] ++ [])%list.
  eapply forwards_bind.
  - apply yields_canaryLimitReached_exhausted; assumption.
  - cbn beta iota. apply forwards_route.
Qed.

Lemma forwards_route_logged :
  forall t s req reason entry b w,
    forwards env
      (exec env (req1 <- setRoutingReason req reason ;;
                 trigger (LogPrint entry) ;; serve t s req1) b w)
      b w t reason req [] [].
Proof.
  intros t s req reason entry b w.
  destruct (yields_setRoutingReason req reason b w) as (req' & Hy & Hsame).
  exists req'. split; [| exact Hsame].
  change [(t, req')] with ([] ++ [(t, req')])%list.
  change [reason] with ([reason] ++ [])%list.
  change (@nil Op) with (@nil Op ++ @nil Op)%list.
  change (@nil Request) with (@nil Request ++ @nil Request)%list.
  eapply yields_bind; [exact Hy |].
  cbn [bind trigger exec interp].
  destruct (yields_serve t s req' b w) as (H1 & H2 & H3 & H4 & H5 & H6 & H7).
  unfold yields. cbn [result bucket_after writer_after trace].
  repeat split; assumption.
Qed.

Lemma viaProxyWithSidecar_unreadable :
  forall s req e b w,
    precheck_passes s b -> failure (Body req) = Some e ->
    forwards env (exec env (viaProxyWithSidecar s req) b w) b w Main e
             (replayable req) [] (precheck_calls s).
Proof.
  intros s req e b w Hp He. unfold viaProxyWithSidecar.
  change (@nil Request) with (@nil Request ++ @nil Request)%list.
  rewrite <- (app_nil_r (precheck_calls s)).
  eapply forwards_bind.
  - apply yields_canaryLimitReached_passes. exact Hp.
  - cbn beta iota.
    change (@nil Request) with (@nil Request ++ @nil Request)%list.
    change (@nil Op) with (@nil Op ++ @nil Op)%list.
    eapply forwards_bind.
    + apply yields_callSidecar_unreadable. exact He.
    + cbn beta iota. apply forwards_route_logged.
Qed.

Lemma viaProxyWithSidecar_unavailable :
  forall s req code e b w,
    precheck_passes s b -> failure (Body req) = None ->
    sidecarVerdict (proxied NewRecorder (sidecar env (replayable req))) = (code, Some e) ->
    forwards env (exec env (viaProxyWithSidecar s req) b w) b w Main e
             (replayable req) [replayable req] (precheck_calls s).
Proof.
  intros s req code e b w Hp He Hv. unfold viaProxyWithSidecar.
  change [replayable req] with ([] ++ [replayable req])%list.
  rewrite <- (app_nil_r (precheck_calls s)).
  eapply forwards_bind.
  - apply yields_canaryLimitReached_passes. exact Hp.
  - cbn beta iota.
    change [replayable req] with ([replayable req] ++ [])%list.
    change (@nil Op) with (@nil Op ++ @nil Op)%list.
    eapply forwards_bind.
    + apply yields_callSidecar. exact He.
    + fold (replayable req). rewrite Hv. cbn beta iota.
      apply forwards_route_logged.
Qed.

Lemma viaProxyWithSidecar_decided :
  forall s req code b w b' t reason bcs,
    precheck_passes s b -> failure (Body req) = None ->
    sidecarVerdict (proxied NewRecorder (sidecar env (replayable req))) = (code, None) ->
    forwards env (exec env (routeOnStatus s (replayable req) code) b w)
             b' w t reason (replayable req) [] bcs ->
    forwards env (exec env (viaProxyWithSidecar s req) b w) b' w t reason
             (replayable req) [replayable req] (precheck_calls s ++ bcs).
Proof.
  intros s req code b w b' t reason bcs Hp He Hv Hroute. unfold viaProxyWithSidecar.
  change [replayable req] with ([] ++ [replayable req])%list.
  eapply forwards_bind.
  - apply yields_canaryLimitReached_passes. exact Hp.
  - cbn beta iota.
    change [replayable req] with ([replayable req] ++ [])%list.
    change bcs with ([] ++ bcs)%list.
    eapply forwards_bind.
    + apply yields_callSidecar. exact He.
    + fold (replayable req). rewrite Hv. cbn beta iota. exact Hroute.
Qed.

(** *** The whole handler *)

Lemma yields_viaProxy_override :
  forall s req x b w,
    convertToBool (Header_Get (Header req) "X-Canary") = (x, None) ->
    forwards env (exec env (viaProxy s req) b w) b w
             (if x then Canary else Main)
             ("Routed via X-Canary header value: " ++ Header_Get (Header req) "X-Canary")
             (prepared env s req) [] [].
Proof.
  intros s req x b w Hconv.
  destruct (forwards_route (if x then Canary else Main) s (prepared env s req)
              ("Routed via X-Canary header value: " ++ Header_Get (Header req) "X-Canary")
              b w) as (req' & Hy & Hsame).
  exists req'. split; [| exact Hsame].
  unfold viaProxy. apply yields_deferRecover.
  unfold pipeline. cbn [bind trigger exec interp]. returns_normally.
  cbn [returning bind]. cbn [with_Path WithContext Header].
  rewrite Hconv.
  destruct Hy as (H1 & H2 & H3 & H4 & H5 & H6 & H7).
  unfold yields. cbn [result bucket_after writer_after trace].
  unfold serveCanary, serveMain.
  destruct x; repeat split; assumption.
Qed.

Lemma yields_viaProxy_handler :
  forall s req b w x b' w' ds rs scs bcs,
    overridden req = false ->
    yields (exec env (handlerFunc s (prepared env s req)) b w) x b' w' ds rs scs bcs ->
    yields (exec env (viaProxy s req) b w) x b' w' ds rs scs bcs.
Proof.
  intros s req b w x b' w' ds rs scs bcs Hov Hy.
  unfold viaProxy. apply yields_deferRecover.
  unfold pipeline. cbn [bind trigger exec interp]. returns_normally.
  cbn [returning bind]. cbn [with_Path WithContext Header].
  unfold overridden in Hov.
  destruct (convertToBool (Header_Get (Header req) "X-Canary")) as [xc [e |]];
    [| discriminate Hov].
  destruct Hy as (H1 & H2 & H3 & H4 & H5 & H6 & H7).
  unfold yields. cbn [result bucket_after writer_after trace].
  repeat split; assumption.
Qed.

Lemma forwards_viaProxy_handler :
  forall s req b w b' t reason req0 scs bcs,
    overridden req = false ->
    forwards env (exec env (handlerFunc s (prepared env s req)) b w)
             b' w t reason req0 scs bcs ->
    forwards env (exec env (viaProxy s req) b w) b' w t reason req0 scs bcs.
Proof.
  intros s req b w b' t reason req0 scs bcs Hov (req' & Hy & Hsame).
  exists req'. split; [| exact Hsame].
  apply yields_viaProxy_handler; assumption.
Qed.

Lemma isSidecarProvided_true :
  forall s, SidecarURL (config s) <> EmptyString -> isSidecarProvided s = true.
Proof.
  intros s H. unfold isSidecarProvided, isSidecarProvided_config.
  apply String.eqb_neq in H. rewrite H. reflexivity.
Qed.

Lemma isSidecarProvided_false :
  forall s, SidecarURL (config s) = EmptyString -> isSidecarProvided s = false.
Proof.
  intros s H. unfold isSidecarProvided, isSidecarProvided_config.
  rewrite H. reflexivity.
Qed.

Lemma overridden_false :
  forall req,
    Header_Get (Header req) "X-Canary" <> "true" ->
    Header_Get (Header req) "X-Canary" <> "false" ->
    overridden req = false.
Proof.
  intros req Ht Hf. unfold overridden.
  rewrite (convertToBool_other _ Ht Hf). reflexivity.
Qed.

Lemma forwards_targets :
  forall r b' w t reason req scs bcs,
    forwards env r b' w t reason req scs bcs ->
    result r = Returned tt /\ bucket_after r = b' /\
    targets (trace r) = [t] /\ reasons (trace r) = [reason] /\
    sidecar_calls (trace r) = scs /\ bucket_calls (trace r) = bcs.
Proof.
  intros r b' w t reason req scs bcs (req' & (H1 & H2 & H3 & H4 & H5 & H6 & H7) & _).
  unfold targets. rewrite H4. cbn. repeat split; assumption.
Qed.

Local Abbreviation serving := (serving StatusCodeMain StatusCodeCanary).

(** C2.  A request whose [X-Canary] header is exactly ["true"] is forwarded to
    canary, one whose header is exactly ["false"] to main; in both cases the
    reason says that the header decided, the sidecar is not called and the
    bucket is neither read nor changed.  With any other value (absent, ["1"],
    ["TRUE"], empty, anything else) the conversion fails and the handler runs
    [handlerFunc], the routing without override, in every environment. *)
Theorem header_override_decides :
  forall (s : Server) (req : Request) (b : option Bucket),
    (Header_Get (Header req) "X-Canary" = "true" ->
     let r := serving env s req b in
     result r = Returned tt /\ targets (trace r) = [Canary] /\
     reasons (trace r) = ["Routed via X-Canary header value: true"] /\
     sidecar_calls (trace r) = [] /\ bucket_calls (trace r) = [] /\
     bucket_after r = b) /\
    (Header_Get (Header req) "X-Canary" = "false" ->
     let r := serving env s req b in
     result r = Returned tt /\ targets (trace r) = [Main] /\
     reasons (trace r) = ["Routed via X-Canary header value: false"] /\
     sidecar_calls (trace r) = [] /\ bucket_calls (trace r) = [] /\
     bucket_after r = b) /\
    (Header_Get (Header req) "X-Canary" <> "true" ->
     Header_Get (Header req) "X-Canary" <> "false" ->
     snd (convertToBool (Header_Get (Header req) "X-Canary")) <> None /\
     forall (env' : Env) (w : ResponseWriter),
       exec env' (viaProxy s req) b w =
       exec env'
         (deferRecover (recovered req)
            (o <- trigger (InitializeLatencyTracking (Ctx req)) ;;
             ctx <- returning o ;;
             handlerFunc s
               (with_Path (WithContext req ctx)
                  (trimRequestPathPrefix (Path req) (TrimPrefix (config s))))))
         b w).
Proof.
  intros s req b. split; [| split].
  - intros Hv r.
    pose proof (yields_viaProxy_override s req true b NewRecorder) as H.
    rewrite Hv in H. specialize (H convertToBool_true).
    apply forwards_targets in H. cbn in H. subst r. unfold serving, ServeHTTP.
    destruct H as (H1 & H2 & H3 & H4 & H5 & H6). repeat split; assumption.
  - intros Hv r.
    pose proof (yields_viaProxy_override s req false b NewRecorder) as H.
    rewrite Hv in H. specialize (H convertToBool_false).
    apply forwards_targets in H. cbn in H. subst r. unfold serving, ServeHTTP.
    destruct H as (H1 & H2 & H3 & H4 & H5 & H6). repeat split; assumption.
  - intros Ht Hf. split.
    + rewrite (convertToBool_other _ Ht Hf). discriminate.
    + intros env' w. unfold viaProxy, pipeline.
      cbn [bind trigger exec deferRecover].
      destruct (interp env' (InitializeLatencyTracking (Ctx req)) b w) as [a [b' w']].
      destruct a as [ctx | v]; cbn [returning bind deferRecover]; [| reflexivity].
      cbn [with_Path WithContext Header].
      rewrite (convertToBool_other _ Ht Hf). reflexivity.
Qed.

(** C9.  On a server without a sidecar URL, a request without a valid
    override is forwarded to main: the sidecar is not called, no reason is
    tagged and the bucket is left alone. *)
Theorem no_sidecar_routes_to_main :
  forall (s : Server) (req : Request) (b : option Bucket),
    SidecarURL (config s) = EmptyString ->
    overridden req = false ->
    let r := serving env s req b in
    result r = Returned tt /\ targets (trace r) = [Main] /\
    sidecar_calls (trace r) = [] /\ bucket_calls (trace r) = [] /\
    bucket_after r = b.
Proof.
  intros s req b Hurl Hov r. subst r. unfold serving, ServeHTTP.
  assert (Hy : yields (exec env (handlerFunc s (prepared env s req)) b NewRecorder) tt b
                 (apply_actions (backend env Main (prepared env s req)) NewRecorder)
                 [(Main, prepared env s req)] [] [] []).
  { unfold handlerFunc. rewrite (isSidecarProvided_false s Hurl). cbn [negb].
    apply yields_serve. }
  apply (yields_viaProxy_handler s req b NewRecorder _ _ _ _ _ _ _ Hov) in Hy.
  destruct Hy as (H1 & H2 & H3 & H4 & H5 & H6 & H7).
  unfold targets. rewrite H4. cbn. repeat split; assumption.
Qed.

(** C6.  On a server with a sidecar and a quota, a request without a valid
    override that arrives when the bucket has no token left is forwarded to
    main with the reason [Canary limit reached]; the sidecar is not called
    and the bucket stays as it was. *)
Theorem exhausted_quota_skips_sidecar :
  forall (s : Server) (req : Request) (bk : Bucket),
    SidecarURL (config s) <> EmptyString ->
    IsCanaryLimited s = true ->
    availableTokens bk <= 0 ->
    overridden req = false ->
    let r := serving env s req (Some bk) in
    result r = Returned tt /\ targets (trace r) = [Main] /\
    reasons (trace r) = ["Canary limit reached"] /\
    Forall (fun reason => contains reason "limit reached") (reasons (trace r)) /\
    sidecar_calls (trace r) = [] /\
    bucket_calls (trace r) = [BucketAvailable] /\
    bucket_after r = Some bk.
Proof.
  intros s req bk Hurl Hl Hz Hov r. subst r. unfold serving, ServeHTTP.
  assert (H : forwards env (exec env (viaProxy s req) (Some bk) NewRecorder) (Some bk)
                NewRecorder Main "Canary limit reached" (prepared env s req)
                [] [BucketAvailable]).
  { apply forwards_viaProxy_handler; [exact Hov |].
    unfold handlerFunc. rewrite (isSidecarProvided_true s Hurl). cbn [negb].
    apply viaProxyWithSidecar_exhausted; assumption. }
  apply forwards_targets in H.
  destruct H as (H1 & H2 & H3 & H4 & H5 & H6). repeat split; try assumption.
  rewrite H4. constructor; [| constructor].
  exists "Canary ", EmptyString. reflexivity.
Qed.

(** The handler on a request without override, once the sidecar has
    answered with a code other than the sidecar-error code. *)
Lemma serving_decided :
  forall s req b code body b' t reason bcs,
    SidecarURL (config s) <> EmptyString ->
    overridden req = false ->
    precheck_passes s b ->
    failure (Body req) = None ->
    sidecar env (replayable (prepared env s req)) = Responded code body ->
    code <> StatusSidecarError ->
    forwards env (exec env (routeOnStatus s (replayable (prepared env s req)) code)
                    b NewRecorder)
             b' NewRecorder t reason (replayable (prepared env s req)) [] bcs ->
    forwards env (serving env s req b) b' NewRecorder t reason
             (replayable (prepared env s req)) [replayable (prepared env s req)]
             (precheck_calls s ++ bcs).
Proof.
  intros s req b code body b' t reason bcs Hurl Hov Hp He Hreply Hcode Hroute.
  unfold serving, ServeHTTP.
  apply forwards_viaProxy_handler; [exact Hov |].
  unfold handlerFunc. rewrite (isSidecarProvided_true s Hurl). cbn [negb].
  apply (viaProxyWithSidecar_decided s (prepared env s req) code); try assumption.
  rewrite Hreply, sidecarVerdict_responded.
  apply Z.eqb_neq in Hcode. rewrite Hcode. reflexivity.
Qed.

(** The handler on a request without override, once the recorder holds the
    sidecar-error code. *)
Lemma serving_unavailable :
  forall s req b text,
    SidecarURL (config s) <> EmptyString ->
    overridden req = false ->
    precheck_passes s b ->
    failure (Body req) = None ->
    sidecar env (replayable (prepared env s req)) = Responded StatusSidecarError text \/
    sidecar env (replayable (prepared env s req)) = TransportFailed text ->
    forwards env (serving env s req b) b NewRecorder Main text
             (replayable (prepared env s req)) [replayable (prepared env s req)]
             (precheck_calls s).
Proof.
  intros s req b text Hurl Hov Hp He Hreply.
  unfold serving, ServeHTTP.
  apply forwards_viaProxy_handler; [exact Hov |].
  unfold handlerFunc. rewrite (isSidecarProvided_true s Hurl). cbn [negb].
  apply (viaProxyWithSidecar_unavailable s (prepared env s req) StatusSidecarError);
    try assumption.
  destruct Hreply as [-> | ->]; reflexivity.
Qed.

(** C3.  When the switch reaches the canary code, the handler calls
    [TakeAvailable(1)] on the bucket as it is at that moment.  With a quota
    and no token left the request goes to main, with the reason [Sidecar
    returns status code <code>, but canary limit reached], and the bucket is
    unchanged; with a token it goes to canary and the bucket has one token
    less; without a quota it goes to canary and no bucket is touched.  For a
    whole request that passed the pre-check and for which the sidecar
    answered the canary code, this is the canary backend. *)
Theorem canary_decision_is_admitted_or_falls_back :
  forall (s : Server) (req : Request),
    StatusCodeCanary <> StatusCodeMain ->
    (forall bk w,
       IsCanaryLimited s = true -> availableTokens bk <= 0 ->
       let r := exec env (routeOnStatus s req StatusCodeCanary) (Some bk) w in
       result r = Returned tt /\ targets (trace r) = [Main] /\
       reasons (trace r) =
         ["Sidecar returns status code " ++ itoa StatusCodeCanary ++
          ", but canary limit reached"] /\
       Forall (fun reason => contains reason "limit reached") (reasons (trace r)) /\
       bucket_calls (trace r) = [BucketTakeAvailable 1] /\
       bucket_after r = Some bk) /\
    (forall bk w,
       IsCanaryLimited s = true -> 0 < availableTokens bk ->
       let r := exec env (routeOnStatus s req StatusCodeCanary) (Some bk) w in
       result r = Returned tt /\ targets (trace r) = [Canary] /\
       reasons (trace r) = ["Sidecar returns status code " ++ itoa StatusCodeCanary] /\
       bucket_calls (trace r) = [BucketTakeAvailable 1] /\
       bucket_after r = Some (spend bk)) /\
    (forall b w,
       IsCanaryLimited s = false ->
       let r := exec env (routeOnStatus s req StatusCodeCanary) b w in
       result r = Returned tt /\ targets (trace r) = [Canary] /\
       reasons (trace r) = ["Sidecar returns status code " ++ itoa StatusCodeCanary] /\
       bucket_calls (trace r) = [] /\
       bucket_after r = b) /\
    (forall b body,
       SidecarURL (config s) <> EmptyString ->
       overridden req = false ->
       precheck_passes s b ->
       failure (Body req) = None ->
       sidecar env (replayable (prepared env s req)) = Responded StatusCodeCanary body ->
       StatusCodeCanary <> StatusSidecarError ->
       let r := serving env s req b in
       result r = Returned tt /\ targets (trace r) = [Canary] /\
       reasons (trace r) = ["Sidecar returns status code " ++ itoa StatusCodeCanary] /\
       bucket_after r = after_admission s b).
Proof.
  intros s req Hne. split; [| split; [| split]].
  - intros bk w Hl Hz r. subst r.
    destruct (forwards_targets _ _ _ _ _ _ _ _
                (routeOnStatus_canary_refused s req bk w Hne Hl Hz))
      as (H1 & H2 & H3 & H4 & H5 & H6).
    repeat split; try assumption.
    rewrite H4. constructor; [| constructor].
    do 2 apply contains_prefixed.
    exists ", but canary ", EmptyString. reflexivity.
  - intros bk w Hl Hpos r.
    assert (Hadm : admission_succeeds s (Some bk)) by (right; eauto).
    pose proof (forwards_targets _ _ _ _ _ _ _ _
                  (routeOnStatus_canary_admitted s req (Some bk) w Hne Hadm)) as Hf.
    unfold after_admission, admission_calls in Hf. rewrite Hl in Hf.
    destruct Hf as (H1 & H2 & H3 & H4 & H5 & H6).
    repeat split; assumption.
  - intros b w Hl r.
    assert (Hadm : admission_succeeds s b) by (left; exact Hl).
    pose proof (forwards_targets _ _ _ _ _ _ _ _
                  (routeOnStatus_canary_admitted s req b w Hne Hadm)) as Hf.
    unfold after_admission, admission_calls in Hf. rewrite Hl in Hf.
    destruct Hf as (H1 & H2 & H3 & H4 & H5 & H6).
    repeat split; assumption.
  - intros b body Hurl Hov Hp He Hreply Hcode r.
    assert (Hadm : admission_succeeds s b) by exact Hp.
    destruct (forwards_targets _ _ _ _ _ _ _ _
                (serving_decided s req b _ _ _ _ _ _ Hurl Hov Hp He Hreply Hcode
                   (routeOnStatus_canary_admitted s _ b NewRecorder Hne Hadm)))
      as (H1 & H2 & H3 & H4 & _).
    repeat split; assumption.
Qed.

(** C8.  For a request that reaches the sidecar: when the sidecar answers
    [StatusCodeMain], the request is forwarded to main with the reason
    [Sidecar returns status code <code>]; when it answers a code that is not
    the main code, the canary code or the sidecar-error code, the request is
    forwarded to main with the reason [Sidecar returns non standard status
    code <code>].  Both reasons carry the observed code, and the bucket is
    not changed. *)
Theorem sidecar_status_mapping :
  forall (s : Server) (req : Request) (b : option Bucket) (body : string),
    SidecarURL (config s) <> EmptyString ->
    overridden req = false ->
    precheck_passes s b ->
    failure (Body req) = None ->
    (sidecar env (replayable (prepared env s req)) = Responded StatusCodeMain body ->
     StatusCodeMain <> StatusSidecarError ->
     let r := serving env s req b in
     result r = Returned tt /\ targets (trace r) = [Main] /\
     reasons (trace r) = ["Sidecar returns status code " ++ itoa StatusCodeMain] /\
     Forall (fun reason => contains reason (itoa StatusCodeMain)) (reasons (trace r)) /\
     bucket_after r = b) /\
    (forall code,
       sidecar env (replayable (prepared env s req)) = Responded code body ->
       code <> StatusCodeMain -> code <> StatusCodeCanary ->
       code <> StatusSidecarError ->
       let r := serving env s req b in
       result r = Returned tt /\ targets (trace r) = [Main] /\
       reasons (trace r) = ["Sidecar returns non standard status code " ++ itoa code] /\
       Forall (fun reason => contains reason (itoa code)) (reasons (trace r)) /\
       bucket_after r = b).
Proof.
  intros s req b body Hurl Hov Hp He. split.
  - intros Hreply Hcode r.
    pose proof (forwards_targets _ _ _ _ _ _ _ _
                  (serving_decided s req b _ _ _ _ _ _ Hurl Hov Hp He Hreply Hcode
                     (routeOnStatus_main s _ b NewRecorder))) as Hf.
    destruct Hf as (H1 & H2 & H3 & H4 & _). subst r.
    repeat split; try assumption.
    rewrite H4. constructor; [apply contains_suffix | constructor].
  - intros code Hreply Hm Hc Hcode r.
    pose proof (forwards_targets _ _ _ _ _ _ _ _
                  (serving_decided s req b _ _ _ _ _ _ Hurl Hov Hp He Hreply Hcode
                     (routeOnStatus_other s _ code b NewRecorder Hm Hc))) as Hf.
    destruct Hf as (H1 & H2 & H3 & H4 & _). subst r.
    repeat split; try assumption.
    rewrite H4. constructor; [apply contains_suffix | constructor].
Qed.

(** C4.  For a request that reaches the sidecar: when the recorder ends up
    with the sidecar-error code, because the sidecar answered 503 or
    because the round trip failed and the error handler of the sidecar proxy
    wrote 503 with the error text, the request is forwarded to main, the
    reason is the recorded body text, and the client's writer holds what the
    main backend wrote and nothing else. *)
Theorem sidecar_error_falls_back_to_main :
  forall (s : Server) (req : Request) (b : option Bucket) (text : string),
    SidecarURL (config s) <> EmptyString ->
    overridden req = false ->
    precheck_passes s b ->
    failure (Body req) = None ->
    sidecar env (replayable (prepared env s req)) = Responded StatusSidecarError text \/
    sidecar env (replayable (prepared env s req)) = TransportFailed text ->
    let recorder := proxied NewRecorder (sidecar env (replayable (prepared env s req))) in
    let r := serving env s req b in
    Code recorder = StatusSidecarError /\ Written recorder = text /\
    result r = Returned tt /\ targets (trace r) = [Main] /\
    reasons (trace r) = [text] /\
    Forall (fun reason => contains reason text) (reasons (trace r)) /\
    (exists req', dispatches (trace r) = [(Main, req')] /\
                  writer_after r = apply_actions (backend env Main req') NewRecorder) /\
    bucket_after r = b.
Proof.
  intros s req b text Hurl Hov Hp He Hreply recorder r.
  pose proof (serving_unavailable s req b text Hurl Hov Hp He Hreply) as Hf.
  pose proof (forwards_targets _ _ _ _ _ _ _ _ Hf) as (H1 & H2 & H3 & H4 & _).
  destruct Hf as (req' & (_ & _ & Hw & Hd & _) & _).
  subst r recorder.
  split; [destruct Hreply as [-> | ->]; reflexivity |].
  split; [destruct Hreply as [-> | ->]; reflexivity |].
  repeat split; try assumption.
  - rewrite H4. constructor; [| constructor].
    exists EmptyString, EmptyString. rewrite append_empty_r. reflexivity.
  - exists req'. split; assumption.
Qed.

(** *** Further properties of runs in which nothing panics *)

Lemma routeOnStatus_forwards :
  forall s r statusCode b w,
    admission_succeeds s b ->
    exists t reason b' bcs,
      forwards env (exec env (routeOnStatus s r statusCode) b w) b' w t reason r [] bcs.
Proof.
  intros s r statusCode b w Hadm. unfold routeOnStatus.
  destruct (statusCode =? StatusCodeMain);
    [do 4 eexists; apply forwards_route |].
  destruct (statusCode =? StatusCodeCanary);
    [| do 4 eexists; apply forwards_route].
  exists Canary, ("Sidecar returns status code " ++ itoa statusCode),
    (after_admission s b), (admission_calls s ++ [])%list.
  change (@nil Request) with (@nil Request ++ @nil Request)%list.
  eapply forwards_bind.
  - apply yields_canaryAdmissionRefused_admits. exact Hadm.
  - cbn beta iota. apply forwards_route.
Qed.

Lemma viaProxyWithSidecar_forwards :
  forall s r b w,
    consistent s b ->
    exists t reason req0 b' scs bcs,
      forwards env (exec env (viaProxyWithSidecar s r) b w) b' w t reason req0 scs bcs.
Proof.
  intros s r b w Hcons.
  assert (Hpass : precheck_passes s b ->
            exists t reason req0 b' scs bcs,
              forwards env (exec env (viaProxyWithSidecar s r) b w)
                       b' w t reason req0 scs bcs).
  { intros Hp. destruct (failure (Body r)) as [e |] eqn:He.
    - do 6 eexists. apply (viaProxyWithSidecar_unreadable s r e b w Hp He).
    - destruct (sidecarVerdict (proxied NewRecorder (sidecar env (replayable r))))
        as [code [e |]] eqn:Hv.
      + do 6 eexists. apply (viaProxyWithSidecar_unavailable s r code e b w Hp He Hv).
      + destruct (routeOnStatus_forwards s (replayable r) code b w Hp)
          as (t & reason & b' & bcs & Hf).
        do 6 eexists.
        apply (viaProxyWithSidecar_decided s r code b w b' t reason bcs Hp He Hv Hf). }
  destruct (IsCanaryLimited s) eqn:Hl.
  - destruct (Hcons Hl) as (bk & ->).
    destruct (Z_lt_le_dec 0 (availableTokens bk)) as [Hpos | Hle].
    + apply Hpass. right. eauto.
    + do 6 eexists. apply (viaProxyWithSidecar_exhausted s r bk w Hl Hle).
  - apply Hpass. left. exact Hl.
Qed.

(** X8.  When nothing panics and the bucket exists whenever the server is
    limited, every request is answered: it is passed to exactly one backend,
    the handler returns, and the client's connection holds exactly what that
    backend wrote for the request it was given. *)
Theorem every_request_reaches_one_backend :
  forall (s : Server) (req : Request) (b : option Bucket),
    consistent s b ->
    let r := serving env s req b in
    exists t req',
      result r = Returned tt /\
      dispatches (trace r) = [(t, req')] /\
      writer_after r = apply_actions (backend env t req') NewRecorder.
Proof.
  intros s req b Hcons r. subst r. unfold serving, ServeHTTP.
  assert (Hfw : forall t reason req0 b' scs bcs,
            forwards env (exec env (viaProxy s req) b NewRecorder)
                     b' NewRecorder t reason req0 scs bcs ->
            exists t req',
              result (exec env (viaProxy s req) b NewRecorder) = Returned tt /\
              dispatches (trace (exec env (viaProxy s req) b NewRecorder)) = [(t, req')] /\
              writer_after (exec env (viaProxy s req) b NewRecorder) =
                apply_actions (backend env t req') NewRecorder).
  { intros t reason req0 b' scs bcs (req' & (H1 & _ & H3 & H4 & _) & _).
    exists t, req'. auto. }
  destruct (overridden req) eqn:Hov.
  - unfold overridden in Hov.
    destruct (convertToBool (Header_Get (Header req) "X-Canary")) as [x [e |]] eqn:Hconv;
      [discriminate Hov |].
    eapply Hfw. apply (yields_viaProxy_override s req x b NewRecorder Hconv).
  - destruct (isSidecarProvided s) eqn:Hprov.
    + destruct (viaProxyWithSidecar_forwards s (prepared env s req) b NewRecorder Hcons)
        as (t & reason & req0 & b' & scs & bcs & Hf).
      eapply Hfw. apply forwards_viaProxy_handler; [exact Hov |].
      unfold handlerFunc. rewrite Hprov. cbn [negb]. exact Hf.
    + assert (Hy : yields (exec env (handlerFunc s (prepared env s req)) b NewRecorder)
                     tt b
                     (apply_actions (backend env Main (prepared env s req)) NewRecorder)
                     [(Main, prepared env s req)] [] [] []).
      { unfold handlerFunc. rewrite Hprov. cbn [negb]. apply yields_serve. }
      apply (yields_viaProxy_handler s req b NewRecorder _ _ _ _ _ _ _ Hov) in Hy.
      destruct Hy as (H1 & _ & H3 & H4 & _).
      exists Main, (prepared env s req). auto.
Qed.

(** X9.  When the body of a request without override cannot be read to its
    end, [callSidecar] fails before the sidecar is called: the request goes
    to main with the read error as its reason, the bucket is left alone, and
    the backend gets a reader over the bytes that were read before the
    error. *)
Theorem unreadable_body_falls_back_to_main :
  forall (s : Server) (req : Request) (b : option Bucket) (e : string),
    SidecarURL (config s) <> EmptyString ->
    overridden req = false ->
    precheck_passes s b ->
    failure (Body req) = Some e ->
    let r := serving env s req b in
    result r = Returned tt /\ targets (trace r) = [Main] /\
    reasons (trace r) = [e] /\ sidecar_calls (trace r) = [] /\
    admissions (trace r) = 0%nat /\ bucket_after r = b /\
    (forall t req', In (t, req') (dispatches (trace r)) ->
                    Body req' = NopCloser (content (Body req))).
Proof.
  intros s req b e Hurl Hov Hp He r. subst r.
  assert (Hf : forwards env (serving env s req b) b NewRecorder Main e
                 (replayable (prepared env s req)) [] (precheck_calls s)).
  { unfold serving, ServeHTTP. apply forwards_viaProxy_handler; [exact Hov |].
    unfold handlerFunc. rewrite (isSidecarProvided_true s Hurl). cbn [negb].
    apply viaProxyWithSidecar_unreadable; assumption. }
  pose proof (forwards_targets _ _ _ _ _ _ _ _ Hf) as (H1 & H2 & H3 & H4 & H5 & H6).
  destruct Hf as (req' & (_ & _ & _ & Hd & _) & Hbody & _).
  repeat split; try assumption.
  - unfold admissions.
    assert (Hnone : forall tr, Forall (fun op => keeps_tokens op) (bucket_calls tr) ->
                               filter admitted tr = []).
    { intros tr. unfold bucket_calls. induction tr as [| [op a] tr IH]; cbn; [reflexivity |].
      destruct op; cbn; try exact IH; intros Hall; inversion Hall; subst;
        first [contradiction | apply IH; assumption]. }
    rewrite Hnone; [reflexivity |]. rewrite H6. unfold precheck_calls.
    destruct (IsCanaryLimited s); repeat constructor.
  - intros t r' Hin. rewrite Hd in Hin. destruct Hin as [Heq | []].
    inversion Heq; subst. rewrite Hbody. reflexivity.
Qed.

Lemma handlerFunc_with_sidecar :
  forall s, SidecarURL (config s) <> EmptyString -> handlerFunc s = viaProxyWithSidecar s.
Proof.
  intros s Hurl. unfold handlerFunc. rewrite (isSidecarProvided_true s Hurl). reflexivity.
Qed.

(** X10.  Requests served one after the other, on a limited server whose
    sidecar answers the canary code every time: with [n] tokens in the
    bucket the first [n] requests go to canary and every later one goes to
    main with the reason [Canary limit reached], for which the sidecar is no
    longer asked. *)
Theorem quota_is_spent_in_arrival_order :
  forall (s : Server) (reqs : list Request) (bk : Bucket),
    SidecarURL (config s) <> EmptyString ->
    IsCanaryLimited s = true ->
    StatusCodeCanary <> StatusCodeMain ->
    StatusCodeCanary <> StatusSidecarError ->
    (forall outreq, exists body, sidecar env outreq = Responded StatusCodeCanary body) ->
    Forall (fun req => overridden req = false /\ failure (Body req) = None) reqs ->
    0 <= availableTokens bk ->
    let k := Nat.min (Z.to_nat (availableTokens bk)) (List.length reqs) in
    let runs := serve_in_turn StatusCodeMain StatusCodeCanary env s reqs (Some bk) in
    List.concat (map (fun r => targets (trace r)) runs) =
      (repeat Canary k ++ repeat Main (List.length reqs - k))%list /\
    List.concat (map (fun r => reasons (trace r)) runs) =
      (repeat ("Sidecar returns status code " ++ itoa StatusCodeCanary)%string k ++
       repeat "Canary limit reached" (List.length reqs - k))%list /\
    List.concat (map (fun r => sidecar_calls (trace r)) runs) =
      firstn k (map (fun req => replayable (prepared env s req)) reqs) /\
    Forall (fun r => result r = Returned tt) runs.
Proof.
  intros s reqs bk Hurl Hl Hne Hcode Hside Hreqs. revert bk.
  induction Hreqs as [| req later [Hov He] Hlater IH]; intros bk Hpos k runs;
    subst k runs.
  - cbn. rewrite Nat.min_0_r. cbn. auto.
  - cbn [serve_in_turn map List.concat List.length].
    destruct (Z_lt_le_dec 0 (availableTokens bk)) as [Hlt | Hle].
    + assert (Hp : precheck_passes s (Some bk)) by (right; eauto).
      destruct (Hside (replayable (prepared env s req))) as (body & Hreply).
      pose proof (forwards_targets _ _ _ _ _ _ _ _
                    (serving_decided s req (Some bk) _ _ _ _ _ _ Hurl Hov Hp He Hreply
                       Hcode
                       (routeOnStatus_canary_admitted s _ (Some bk) NewRecorder Hne Hp)))
        as (H1 & H2 & H3 & H4 & H5 & _).
      unfold after_admission in H2. rewrite Hl in H2. cbn [option_map] in H2.
      rewrite H2, H3, H4, H5.
      assert (Hspent : 0 <= availableTokens (spend bk)) by (cbn; lia).
      destruct (IH (spend bk) Hspent) as (IH1 & IH2 & IH3 & IH4).
      rewrite IH1, IH2, IH3.
      replace (Z.to_nat (availableTokens bk))
        with (S (Z.to_nat (availableTokens (spend bk)))) by (cbn; lia).
      cbn [Nat.min Nat.sub repeat app firstn map].
      repeat split; try reflexivity. constructor; assumption.
    + assert (Hf : forwards env (serving env s req (Some bk)) (Some bk) NewRecorder Main
                     "Canary limit reached" (prepared env s req) [] [BucketAvailable]).
      { unfold serving, ServeHTTP. apply forwards_viaProxy_handler; [exact Hov |].
        rewrite (handlerFunc_with_sidecar s Hurl).
        apply viaProxyWithSidecar_exhausted; assumption. }
      pose proof (forwards_targets _ _ _ _ _ _ _ _ Hf) as (H1 & H2 & H3 & H4 & H5 & _).
      rewrite H2, H3, H4, H5.
      destruct (IH bk Hpos) as (IH1 & IH2 & IH3 & IH4).
      rewrite IH1, IH2, IH3.
      replace (Z.to_nat (availableTokens bk)) with 0%nat by lia.
      cbn [Nat.min Nat.sub repeat app firstn map].
      rewrite Nat.sub_0_r.
      repeat split; try reflexivity. constructor; assumption.
Qed.

End Sequential.

(** ** Properties of program trees *)

Lemma Always_bind :
  forall (A B : Type) (P : Op -> Prop) (Q : A -> Prop) (p : Prog A) (f : A -> Prog B),
    Always P p -> Returns Q p -> (forall a, Q a -> Always P (f a)) ->
    Always P (bind p f).
Proof.
  intros A B P Q p f. induction p as [r | v | op k IH]; cbn.
  - intros _ Hq Hf. apply Hf, Hq.
  - auto.
  - intros [Hop Hk] Hq Hf. split; [exact Hop |].
    intros a. apply IH; auto.
Qed.

Lemma Returns_bind :
  forall (A B : Type) (Q : A -> Prop) (Q' : B -> Prop) (p : Prog A) (f : A -> Prog B),
    Returns Q p -> (forall a, Q a -> Returns Q' (f a)) -> Returns Q' (bind p f).
Proof.
  intros A B Q Q' p f. induction p as [r | v | op k IH]; cbn.
  - intros Hq Hf. apply Hf, Hq.
  - auto.
  - intros Hq Hf a. apply IH; auto.
Qed.

Lemma Returns_trivial :
  forall (R : Type) (p : Prog R), Returns (fun _ => True) p.
Proof. intros R p. induction p as [r | v | op k IH]; cbn; auto. Qed.

Lemma Always_defer :
  forall (A : Type) (P : Op -> Prop) (d : Prog unit) (p : Prog A),
    Always P d -> Always P p -> Always P (defer d p).
Proof.
  intros A P d p Hd. induction p as [r | v | op k IH]; cbn.
  - intros _. apply (Always_bind _ _ P (fun _ => True)); cbn; auto using Returns_trivial.
  - intros _. apply (Always_bind _ _ P (fun _ => True)); cbn; auto using Returns_trivial.
  - intros [Hop Hk]. split; [exact Hop | intros a; apply IH, Hk].
Qed.

Lemma Always_deferRecover :
  forall (A : Type) (P : Op -> Prop) (h : PanicValue -> Prog A) (p : Prog A),
    (forall v, Always P (h v)) -> Always P p -> Always P (deferRecover h p).
Proof.
  intros A P h p Hh. induction p as [r | v | op k IH]; cbn; auto.
  intros [Hop Hk]. split; [exact Hop | intros a; apply IH, Hk].
Qed.

Lemma Always_trace :
  forall (R : Type) (P : Op -> Prop) (env : Env) (p : Prog R) b w,
    Always P p -> Forall (fun e => P (ev_op e)) (trace (exec env p b w)).
Proof.
  intros R P env p. induction p as [r | v | op k IH]; intros b w; cbn.
  - constructor.
  - constructor.
  - intros [Hop Hk]. destruct (interp env op b w) as [a [b' w']]. cbn.
    constructor; [exact Hop | apply IH, Hk].
Qed.


Lemma interp_leaves_bucket :
  forall env op b w, leaves_bucket op -> fst (snd (interp env op b w)) = b.
Proof.
  intros env op b w. destruct op; cbn; try reflexivity; discriminate.
Qed.

Lemma Always_leaves_bucket :
  forall (R : Type) (env : Env) (p : Prog R) b w,
    Always leaves_bucket p ->
    bucket_after (exec env p b w) = b /\ bucket_calls (trace (exec env p b w)) = [].
Proof.
  intros R env p. induction p as [r | v | op k IH]; intros b w; cbn.
  - auto.
  - auto.
  - intros [Hop Hk].
    pose proof (interp_leaves_bucket env op b w Hop) as Hb.
    destruct (interp env op b w) as [a [b' w']]. cbn in Hb. subst b'. cbn.
    destruct (IH a b w' (Hk a)) as [H1 H2].
    split; [exact H1 |].
    unfold bucket_calls in *. cbn. unfold leaves_bucket in Hop. rewrite Hop. exact H2.
Qed.

Section Trees.

Variable StatusCodeMain : Z.
Variable StatusCodeCanary : Z.

Local Abbreviation routeOnStatus := (routeOnStatus StatusCodeMain StatusCodeCanary).
Local Abbreviation viaProxyWithSidecar := (viaProxyWithSidecar StatusCodeMain StatusCodeCanary).
Local Abbreviation handlerFunc := (handlerFunc StatusCodeMain StatusCodeCanary).
Local Abbreviation pipeline := (pipeline StatusCodeMain StatusCodeCanary).
Local Abbreviation viaProxy := (viaProxy StatusCodeMain StatusCodeCanary).
Local Abbreviation serving := (serving StatusCodeMain StatusCodeCanary).

Lemma Always_setRoutingReason :
  forall (P : Op -> Prop) req reason,
    (forall op, bookkeeping op -> P op) ->
    Always P (setRoutingReason req reason).
Proof.
  intros P req reason HP. unfold setRoutingReason. cbn.
  split; [apply HP; exact I |].
  intros [[ctx [e |]] | v]; cbn; auto.
  split; [apply HP; exact I | auto].
Qed.

Lemma Returns_setRoutingReason :
  forall req reason, Returns (same_payload req) (setRoutingReason req reason).
Proof.
  intros req reason. unfold setRoutingReason, same_payload. cbn.
  intros [[ctx [e |]] | v]; cbn; auto.
Qed.

Lemma Always_recordMetricTarget :
  forall (P : Op -> Prop) s ctx target,
    (forall op, bookkeeping op -> P op) ->
    Always P (recordMetricTarget s ctx target).
Proof.
  intros P s ctx target HP. unfold recordMetricTarget. cbn.
  split; [apply HP; exact I |].
  intros [[ctx1 [e1 |]] | v1]; cbn; auto;
    repeat (split; [apply HP; exact I |]); try intros _;
    repeat (split; [apply HP; exact I |]);
    intros [[ctx2 [e2 |]] | v2]; cbn; auto;
    repeat (split; [apply HP; exact I |]); try intros _;
    repeat (split; [apply HP; exact I |]);
    intros [[] | v3]; cbn; auto.
Qed.

Lemma Always_serve :
  forall (P : Op -> Prop) t s req,
    (forall op, bookkeeping op -> P op) -> P (ProxyServeHTTP t req) ->
    Always P (serve t s req).
Proof.
  intros P t s req HP Hproxy. unfold serve.
  apply Always_defer; [apply Always_recordMetricTarget; exact HP |].
  cbn. split; [apply HP; exact I |]. intros _.
  split; [exact Hproxy |]. intros [[] | v]; cbn; auto.
Qed.

Lemma Always_route :
  forall (P : Op -> Prop) t s req reason,
    (forall op, bookkeeping op -> P op) ->
    (forall req', Body req' = Body req -> P (ProxyServeHTTP t req')) ->
    Always P (req1 <- setRoutingReason req reason ;; serve t s req1).
Proof.
  intros P t s req reason HP Hproxy.
  apply (Always_bind _ _ P (same_payload req)).
  - apply Always_setRoutingReason; exact HP.
  - apply Returns_setRoutingReason.
  - intros req' (Hb & _). apply Always_serve; [exact HP | apply Hproxy; exact Hb].
Qed.

Lemma Always_callSidecar :
  forall (P : Op -> Prop) s req,
    P (SidecarRoundTrip (replayable req)) -> Always P (callSidecar s req).
Proof.
  intros P s req HP. unfold callSidecar, ReadAll.
  destruct (failure (Body req)) as [e |]; cbn; auto.
  split; [exact HP |]. intros [reply | v]; cbn; auto.
Qed.

Lemma Returns_callSidecar :
  forall s req, Returns (fun x => fst x = replayable req) (callSidecar s req).
Proof.
  intros s req. unfold callSidecar, ReadAll.
  destruct (failure (Body req)) as [e |]; cbn; auto.
  intros [reply | v]; cbn; auto.
Qed.

Lemma Always_routeOnStatus :
  forall (P : Op -> Prop) s req statusCode,
    permits P (content (Body req)) ->
    Always P (routeOnStatus s req statusCode).
Proof.
  intros P s req statusCode (HP & _ & Htake & _ & _ & _ & Hproxy).
  assert (Hr : forall t reason,
             Always P (req1 <- setRoutingReason req reason ;; serve t s req1)).
  { intros t reason. apply Always_route; [exact HP |].
    intros req' Hb. apply Hproxy. rewrite Hb. reflexivity. }
  unfold routeOnStatus.
  destruct (statusCode =? StatusCodeMain); [apply Hr |].
  destruct (statusCode =? StatusCodeCanary); [| apply Hr].
  unfold canaryAdmissionRefused.
  destruct (IsCanaryLimited s); cbn; [| apply Hr].
  split; [exact Htake |].
  intros [n | v]; cbn; [| exact I].
  destruct (n =? 0); apply Hr.
Qed.

Lemma Always_viaProxyWithSidecar :
  forall (P : Op -> Prop) s req,
    permits P (content (Body req)) ->
    Always P (viaProxyWithSidecar s req).
Proof.
  intros P s req Hperm.
  pose proof Hperm as (HP & Havail & _ & _ & _ & Hside & Hproxy).
  assert (Hr : forall t req0 reason, content (Body req0) = content (Body req) ->
             Always P (req1 <- setRoutingReason req0 reason ;; serve t s req1)).
  { intros t req0 reason Hc. apply Always_route; [exact HP |].
    intros req' Hb. apply Hproxy. rewrite Hb. exact Hc. }
  assert (Hcall : Always P
            (x <- callSidecar s req ;;
             match x with
             | (req0, (statusCode, err)) =>
                 match err with
                 | Some e =>
                     req1 <- setRoutingReason req0 e ;;
                     trigger (LogPrint (LogText ("Error when calling sidecar: " ++ e))) ;;
                     serveMain s req1
                 | None => routeOnStatus s req0 statusCode
                 end
             end)).
  { apply (Always_bind _ _ P (fun x => fst x = replayable req)).
    - apply Always_callSidecar. apply Hside. reflexivity.
    - apply Returns_callSidecar.
    - intros [req0 [statusCode [e |]]] Hx; cbn in Hx; subst req0.
      + apply (Always_bind _ _ P (same_payload (replayable req))).
        * apply Always_setRoutingReason; exact HP.
        * apply Returns_setRoutingReason.
        * intros req' (Hb & _). cbn. split; [apply HP; exact I |]. intros _.
          apply Always_serve; [exact HP |]. apply Hproxy. rewrite Hb. reflexivity.
      + apply Always_routeOnStatus. exact Hperm. }
  unfold viaProxyWithSidecar, canaryLimitReached.
  destruct (IsCanaryLimited s); cbn.
  - split; [exact Havail |].
    intros [n | v]; cbn; [| exact I].
    destruct (n <=? 0); [apply Hr; reflexivity | exact Hcall].
  - exact Hcall.
Qed.

Lemma Always_recovered :
  forall (P : Op -> Prop) req v,
    (forall op, bookkeeping op -> P op) ->
    (forall code, P (ResponseWriteHeader code)) ->
    (forall data, P (ResponseWrite data)) ->
    Always P (recovered req v).
Proof.
  intros P req v HP Hh Hw. unfold recovered, http_Error. cbn.
  split; [apply HP; exact I |]. intros _.
  split; [apply Hh |]. intros _. split; [apply Hw | auto].
Qed.

Lemma Always_viaProxy :
  forall (P : Op -> Prop) s req,
    permits P (content (Body req)) -> Always P (viaProxy s req).
Proof.
  intros P s req Hperm.
  pose proof Hperm as (HP & _ & _ & Hh & Hw & _ & Hproxy).
  unfold viaProxy.
  apply Always_deferRecover; [intros v; apply Always_recovered; assumption |].
  unfold pipeline. cbn [bind trigger Always]. split; [apply HP; exact I |].
  intros [ctx | v]; cbn [returning bind Always]; [| exact I].
  cbn [with_Path WithContext Header].
  destruct (convertToBool (Header_Get (Header req) "X-Canary")) as [xCanary [e |]].
  - unfold handlerFunc. destruct (negb (isSidecarProvided s)).
    + apply Always_serve; [exact HP |]. apply Hproxy. reflexivity.
    + apply Always_viaProxyWithSidecar. exact Hperm.
  - apply (Always_bind _ _ P (same_payload
             (with_Path (WithContext req ctx)
                (trimRequestPathPrefix (Path req) (TrimPrefix (config s)))))).
    + apply Always_setRoutingReason; exact HP.
    + apply Returns_setRoutingReason.
    + intros req' (Hb & _).
      destruct xCanary; apply Always_serve; try exact HP;
        apply Hproxy; rewrite Hb; reflexivity.
Qed.

Lemma Always_viaProxy_override :
  forall (P : Op -> Prop) s req,
    overridden req = true -> permits_override P -> Always P (viaProxy s req).
Proof.
  intros P s req Hov (HP & Hh & Hw & Hproxy).
  unfold viaProxy.
  apply Always_deferRecover; [intros v; apply Always_recovered; assumption |].
  unfold pipeline. cbn [bind trigger Always]. split; [apply HP; exact I |].
  intros [ctx | v]; cbn [returning bind Always]; [| exact I].
  cbn [with_Path WithContext Header].
  unfold overridden in Hov.
  destruct (convertToBool (Header_Get (Header req) "X-Canary")) as [xCanary [e |]];
    [discriminate Hov |].
  apply (Always_bind _ _ P (fun _ => True)).
  - apply Always_setRoutingReason; exact HP.
  - apply Returns_trivial.
  - intros req' _. destruct xCanary; apply Always_serve; auto.
Qed.

Lemma In_choose :
  forall (A B : Type) (f : A -> option B) (l : list A) (y : B),
    In y (choose f l) -> exists x, In x l /\ f x = Some y.
Proof.
  intros A B f l y. induction l as [| x l IH]; cbn; [contradiction |].
  destruct (f x) as [y' |] eqn:Hfx.
  - intros [-> | Hin].
    + exists x. auto.
    + destruct (IH Hin) as (x' & Hx' & Hf). exists x'. auto.
  - intros Hin. destruct (IH Hin) as (x' & Hx' & Hf). exists x'. auto.
Qed.




(** *** Admissions held by a handler *)

Lemma Admits_neutral :
  forall (p : Prog unit) (n : nat), Always neutral p -> Admits n p.
Proof.
  intros p. induction p as [r | v | op k IH]; intros n; cbn; auto.
  intros [Hop Hk].
  destruct op; cbn in Hop; try contradiction; try (intros a; apply IH, Hk).
  destruct t; [intros a; apply IH, Hk | contradiction].
Qed.

Lemma Admits_bind :
  forall (A : Type) (p : Prog A) (f : A -> Prog unit) (n : nat),
    Always neutral p -> (forall a, Admits n (f a)) -> Admits n (bind p f).
Proof.
  intros A p f n. induction p as [r | v | op k IH]; cbn; auto.
  intros [Hop Hk] Hf.
  destruct op; cbn in Hop; try contradiction; try (intros a; apply IH; auto).
  destruct t; [intros a; apply IH; auto | contradiction].
Qed.

Lemma Admits_defer :
  forall (d p : Prog unit) (n : nat),
    Always neutral d -> Admits n p -> Admits n (defer d p).
Proof.
  intros d p n Hd. revert n.
  induction p as [r | v | op k IH]; intros n; cbn.
  - intros _. apply Admits_bind; cbn; auto.
  - intros _. apply Admits_bind; cbn; auto.
  - destruct op; try (intros Hk a; apply IH, Hk).
    destruct t; [intros Hk a; apply IH, Hk |].
    intros [Hn Hk]. split; [exact Hn | intros a; apply IH, Hk].
Qed.

Lemma Admits_deferRecover :
  forall (h : PanicValue -> Prog unit) (p : Prog unit) (n : nat),
    (forall v, Always neutral (h v)) -> Admits n p -> Admits n (deferRecover h p).
Proof.
  intros h p n Hh. revert n.
  induction p as [r | v | op k IH]; intros n; cbn.
  - auto.
  - intros _. apply Admits_neutral, Hh.
  - destruct op; try (intros Hk a; apply IH, Hk).
    destruct t; [intros Hk a; apply IH, Hk |].
    intros [Hn Hk]. split; [exact Hn | intros a; apply IH, Hk].
Qed.

Lemma bookkeeping_neutral : forall op, bookkeeping op -> neutral op.
Proof. intros op. destruct op; cbn; auto; contradiction. Qed.

Lemma Admits_serveMain : forall s req n, Admits n (serveMain s req).
Proof.
  intros s req n. apply Admits_neutral. apply Always_serve.
  - exact bookkeeping_neutral.
  - exact I.
Qed.

Lemma Admits_serveCanary : forall s req n, Admits (S n) (serveCanary s req).
Proof.
  intros s req n. unfold serveCanary, serve.
  apply Admits_defer.
  - apply Always_recordMetricTarget. exact bookkeeping_neutral.
  - cbn. intros _. split; [lia |].
    intros [[] | v]; cbn; exact I.
Qed.

Lemma Admits_route_main :
  forall s req reason n,
    Admits n (req1 <- setRoutingReason req reason ;; serveMain s req1).
Proof.
  intros s req reason n. apply Admits_bind.
  - apply Always_setRoutingReason. exact bookkeeping_neutral.
  - intros req1. apply Admits_serveMain.
Qed.

Lemma Admits_route_canary :
  forall s req reason n,
    Admits (S n) (req1 <- setRoutingReason req reason ;; serveCanary s req1).
Proof.
  intros s req reason n. apply Admits_bind.
  - apply Always_setRoutingReason. exact bookkeeping_neutral.
  - intros req1. apply Admits_serveCanary.
Qed.

Lemma Admits_routeOnStatus :
  forall s req statusCode,
    IsCanaryLimited s = true -> Admits 0 (routeOnStatus s req statusCode).
Proof.
  intros s req statusCode Hl. unfold routeOnStatus.
  destruct (statusCode =? StatusCodeMain); [apply Admits_route_main |].
  destruct (statusCode =? StatusCodeCanary); [| apply Admits_route_main].
  unfold canaryAdmissionRefused, canaryBucket_TakeAvailable. rewrite Hl.
  cbn [bind trigger Admits].
  intros [n | v]; cbn [returning bind Admits took]; [| exact I].
  destruct (n =? 0); cbn [negb]; [apply Admits_route_main | apply Admits_route_canary].
Qed.

Lemma Admits_viaProxyWithSidecar :
  forall s req,
    IsCanaryLimited s = true -> Admits 0 (viaProxyWithSidecar s req).
Proof.
  intros s req Hl.
  unfold viaProxyWithSidecar, canaryLimitReached, canaryBucket_Available. rewrite Hl.
  cbn [bind trigger Admits].
  intros [n | v]; cbn [returning bind Admits]; [| exact I].
  destruct (n <=? 0); [apply Admits_route_main |].
  apply Admits_bind.
  - apply Always_callSidecar. exact I.
  - intros [req0 [code [e |]]].
    + apply Admits_bind.
      * apply Always_setRoutingReason. exact bookkeeping_neutral.
      * intros req1. cbn [bind trigger Admits]. intros _. apply Admits_serveMain.
    + apply Admits_routeOnStatus. exact Hl.
Qed.

Lemma Admits_viaProxy :
  forall s req,
    IsCanaryLimited s = true -> overridden req = false ->
    Admits 0 (viaProxy s req).
Proof.
  intros s req Hl Hov. unfold viaProxy.
  apply Admits_deferRecover.
  - intros v. apply Always_recovered; cbn; auto using bookkeeping_neutral.
  - unfold pipeline. cbn [bind trigger Admits].
    intros [ctx | v]; cbn [returning bind Admits]; [| exact I].
    cbn [with_Path WithContext Header].
    unfold overridden in Hov.
    destruct (convertToBool (Header_Get (Header req) "X-Canary")) as [xCanary [e |]];
      [| discriminate Hov].
    unfold handlerFunc. destruct (negb (isSidecarProvided s)).
    + apply Admits_serveMain.
    + apply Admits_viaProxyWithSidecar. exact Hl.
Qed.

Lemma permits_takes_one : forall c, permits takes_one c.
Proof.
  intros c. unfold permits. repeat split; cbn; auto.
  intros op. destruct op; cbn; auto; contradiction.
Qed.

End Trees.

(** ** Goroutines sharing the bucket: the invariant *)

Lemma sum_over_app :
  forall (A : Type) (f : A -> nat) (l1 l2 : list A),
    sum_over f (l1 ++ l2) = (sum_over f l1 + sum_over f l2)%nat.
Proof.
  intros A f l1 l2. unfold sum_over.
  induction l1 as [| x l1 IH]; cbn; [reflexivity | rewrite IH; lia].
Qed.

Lemma sum_over_le :
  forall (A : Type) (f g : A -> nat) (l : list A),
    Forall (fun x => (f x <= g x)%nat) l -> (sum_over f l <= sum_over g l)%nat.
Proof.
  intros A f g l H. unfold sum_over.
  induction H as [| x l Hx Hl IH]; cbn; lia.
Qed.

Lemma admissions_snoc :
  forall tr e,
    admissions (tr ++ [e]) = (admissions tr + (if admitted e then 1 else 0))%nat.
Proof.
  intros tr e. unfold admissions. rewrite filter_app, length_app. cbn.
  destruct (admitted e); reflexivity.
Qed.

Lemma canary_dispatches_snoc :
  forall tr op a,
    canary_dispatches (tr ++ [Ev op a]) =
    (canary_dispatches tr +
     match op with ProxyServeHTTP Canary _ => 1 | _ => 0 end)%nat.
Proof.
  intros tr op a. unfold canary_dispatches. rewrite targets_app, filter_app, length_app.
  f_equal. destruct op; try reflexivity. destruct t; reflexivity.
Qed.

Lemma goroutine_step :
  forall g op k a w',
    GoroutineInv g -> rest g = Vis op k ->
    GoroutineInv {| inbound := inbound g; rest := k a; conn := w';
                    performed := performed g ++ [Ev op a] |}.
Proof.
  intros g op k a w' [Hone Hadm] Hrest. rewrite Hrest in Hone, Hadm.
  split; cbn [inbound rest performed].
  - apply Hone.
  - intros Hov. destruct (Hadm Hov) as (n & Hn & Hcount).
    rewrite admissions_snoc, canary_dispatches_snoc.
    destruct op; cbn in Hn; cbn [admitted];
      try (exists n; split; [apply Hn | lia]).
    + exists (if took a then S n else n). split; [apply Hn |].
      destruct (took a); lia.
    + destruct t.
      * exists n. split; [apply Hn | lia].
      * destruct Hn as [Hpos Hn]. exists (n - 1)%nat. split; [apply Hn | lia].
Qed.

Lemma bucket_step :
  forall env op bk w a b' w',
    interp env op (Some bk) w = (a, (b', w')) ->
    takes_one op -> 0 <= availableTokens bk ->
    exists bk',
      b' = Some bk' /\ 0 <= availableTokens bk' /\
      availableTokens bk' + Z.of_nat (if admitted (Ev op a) then 1 else 0) =
      availableTokens bk /\
      (availableTokens bk' = availableTokens bk \/
       (0 < availableTokens bk /\ availableTokens bk' = availableTokens bk - 1 /\
        op = BucketTakeAvailable 1)).
Proof.
  intros env op bk w a b' w' Hi Hone Hpos.
  destruct op; cbn in Hi; inversion Hi; subst; clear Hi;
    try (exists bk; cbn; repeat split; auto; lia).
  cbn in Hone. subst count.
  destruct (Z_lt_le_dec 0 (availableTokens bk)) as [Hlt | Hle].
  - rewrite (TakeAvailable_one_available bk Hlt) in H0. inversion H0; subst.
    exists (spend bk). cbn. repeat split; try lia. right. repeat split; lia.
  - rewrite (TakeAvailable_one_exhausted bk Hle) in H0. inversion H0; subst.
    exists bk. cbn. repeat split; auto; lia.
Qed.

Lemma step_preserves :
  forall N p q,
    PoolInv N p -> step p q ->
    PoolInv N q /\
    (tokens q = tokens p \/ (0 < tokens p /\ tokens q = tokens p - 1)).
Proof.
  intros N p q [(bk & Hshared & Hpos & Hsum) Hall] Hstep.
  inversion Hstep as [env b b' before after g op k a w' Hrest Hinterp Hp Hq].
  subst p q. cbn in Hshared. subst b.
  cbn [goroutines] in Hall.
  pose proof (Forall_elt _ _ _ Hall) as Hg.
  assert (Hone : takes_one op).
  { destruct Hg as [Hone _]. rewrite Hrest in Hone. exact (proj1 Hone). }
  destruct (bucket_step env op bk (conn g) a b' w' Hinterp Hone Hpos)
    as (bk' & -> & Hpos' & Hacc & Hdelta).
  split; [split |].
  - exists bk'. cbn [shared]. repeat split; auto.
    unfold total_admissions in *. cbn [goroutines] in *.
    rewrite sum_over_app in *. cbn [sum_over fold_right performed] in *.
    rewrite admissions_snoc. lia.
  - cbn [goroutines].
    apply Forall_app in Hall. destruct Hall as [Hbefore Hafter].
    apply Forall_app. split; [exact Hbefore |].
    inversion Hafter; subst. constructor; [| assumption].
    apply goroutine_step; assumption.
  - unfold tokens. cbn [shared].
    destruct Hdelta as [-> | (H1 & H2 & _)]; [left; reflexivity | right; lia].
Qed.

Lemma steps_preserve :
  forall N p q, PoolInv N p -> steps p q -> PoolInv N q /\ tokens q <= tokens p.
Proof.
  intros N p q Hinv Hsteps. induction Hsteps as [p | p q r Hpq IH Hqr].
  - split; [exact Hinv | lia].
  - destruct (IH Hinv) as [Hq Hle].
    destruct (step_preserves N q r Hq Hqr) as [Hr Hdelta].
    split; [exact Hr | lia].
Qed.

Lemma PoolInv_bound :
  forall N p,
    PoolInv N p ->
    0 <= tokens p <= N /\ Z.of_nat (decision_canary_dispatches p) <= N - tokens p.
Proof.
  intros N p [(bk & Hshared & Hpos & Hsum) Hall].
  unfold tokens. rewrite Hshared.
  assert (Hle : (decision_canary_dispatches p <= total_admissions p)%nat).
  { unfold decision_canary_dispatches, total_admissions.
    apply sum_over_le. eapply Forall_impl; [| exact Hall].
    intros g [_ Hadm]. destruct (overridden (inbound g)); [lia |].
    destruct (Hadm eq_refl) as (n & _ & Hcount). lia. }
  lia.
Qed.

Lemma int64_in_range : forall x, - 2 ^ 63 <= x < 2 ^ 63 -> int64 x = x.
Proof.
  intros x Hx. unfold int64. rewrite Z.mod_small; lia.
Qed.

Lemma TakeAvailable_one_cases :
  forall bk,
    (0 < availableTokens bk -> TakeAvailable 1 bk = (1, spend bk)) /\
    (availableTokens bk <= 0 -> TakeAvailable 1 bk = (0, bk)).
Proof.
  intros bk. split.
  - apply TakeAvailable_one_available.
  - apply TakeAvailable_one_exhausted.
Qed.

Lemma nth_error_middle :
  forall (A : Type) (l : list A) (i : nat) (x : A),
    nth_error l i = Some x -> l = (firstn i l ++ x :: skipn (S i) l)%list.
Proof.
  intros A l. induction l as [| y l IH]; intros i x.
  - destruct i; discriminate.
  - destruct i as [| i]; cbn.
    + intros H. inversion H. reflexivity.
    + intros H. f_equal. apply IH. exact H.
Qed.

Lemma advance_steps : forall env p i, steps p (advance env p i).
Proof.
  intros env [b gs] i. unfold advance. cbn [goroutines shared].
  destruct (nth_error gs i) as [g |] eqn:Hnth; [| apply steps_refl].
  destruct (rest g) as [r | v | op k] eqn:Hrest; try apply steps_refl.
  destruct (interp env op b (conn g)) as [a [b' w']] eqn:Hinterp.
  eapply steps_step; [apply steps_refl |].
  rewrite (nth_error_middle _ gs i g Hnth) at 1.
  eapply step_goroutine; eassumption.
Qed.

Lemma steps_trans : forall p q r, steps p q -> steps q r -> steps p r.
Proof.
  intros p q r Hpq Hqr. induction Hqr as [q | q r r' Hqr IH Hstep]; auto.
  eapply steps_step; [apply IH; exact Hpq | exact Hstep].
Qed.

Lemma schedule_steps : forall env order p, steps p (schedule env order p).
Proof.
  intros env order. unfold schedule.
  induction order as [| i order IH]; intros p; cbn.
  - apply steps_refl.
  - eapply steps_trans; [apply advance_steps | apply IH].
Qed.

(** A goroutine that is left to run alone ends as [exec] says: a sequential
    run is one of the interleavings. *)
Lemma exec_as_steps :
  forall (env : Env) (p : Prog unit) (b : option Bucket) (before after : list Goroutine)
         (req : Request) (w : ResponseWriter) (tr : list Event),
    steps {| shared := b;
             goroutines := before ++
               {| inbound := req; rest := p; conn := w; performed := tr |} :: after |}
          {| shared := bucket_after (exec env p b w);
             goroutines := before ++
               {| inbound := req; rest := returning (result (exec env p b w));
                  conn := writer_after (exec env p b w);
                  performed := tr ++ trace (exec env p b w) |} :: after |}.
Proof.
  intros env p. induction p as [r | v | op k IH]; intros b before after req w tr.
  - cbn. rewrite app_nil_r. apply steps_refl.
  - cbn. rewrite app_nil_r. apply steps_refl.
  - cbn [exec]. destruct (interp env op b w) as [a [b' w']] eqn:Hinterp.
    cbn [result bucket_after writer_after trace].
    eapply steps_trans.
    + eapply steps_step; [apply steps_refl |].
      apply (step_goroutine env b b' before after
               {| inbound := req; rest := Vis op k; conn := w; performed := tr |}
               op k a w' eq_refl Hinterp).
    + cbn [inbound performed].
      replace (tr ++ Ev op a :: trace (exec env (k a) b' w'))%list
        with ((tr ++ [Ev op a]) ++ trace (exec env (k a) b' w'))%list
        by (rewrite <- app_assoc; reflexivity).
      apply IH.
Qed.

Section Quota.

Variable StatusCodeMain : Z.
Variable StatusCodeCanary : Z.
Variable newReverseProxy : string -> string -> option string.

Local Abbreviation NewServer := (NewServer newReverseProxy).
Local Abbreviation spawn := (spawn StatusCodeMain StatusCodeCanary).
Local Abbreviation serving := (serving StatusCodeMain StatusCodeCanary).
Local Abbreviation pipeline := (pipeline StatusCodeMain StatusCodeCanary).

Lemma NewServer_canaryBucket :
  forall cfg ver s,
    NewServer cfg ver = inl s ->
    canaryBucket s =
      if RequestLimitCanary (CircuitBreaker cfg) =? 0 then None
      else Some (NewBucket infinityDuration
                   (int64 (RequestLimitCanary (CircuitBreaker cfg)))).
Proof.
  intros cfg ver s. unfold NewServer.
  destruct (newReverseProxy (MainTarget cfg) (MainHeaderHost cfg)); [discriminate |].
  destruct (newReverseProxy (CanaryTarget cfg) (CanaryHeaderHost cfg)); [discriminate |].
  destruct (if isSidecarProvided_config cfg
            then newReverseProxy (SidecarURL cfg) EmptyString else None);
    [discriminate |].
  intros H. inversion H. reflexivity.
Qed.

Lemma spawn_PoolInv :
  forall s bk reqs,
    canaryBucket s = Some bk -> 0 <= availableTokens bk ->
    PoolInv (availableTokens bk) (spawn s reqs).
Proof.
  intros s bk reqs Hbk Hpos.
  assert (Hl : IsCanaryLimited s = true) by (unfold IsCanaryLimited; rewrite Hbk; reflexivity).
  split.
  - exists bk. unfold spawn. cbn [shared]. repeat split; auto.
    unfold total_admissions. cbn [goroutines].
    replace (sum_over _ _) with 0%nat; [lia |].
    induction reqs as [| req reqs IH]; cbn; [reflexivity | exact IH].
  - unfold spawn. cbn [goroutines]. apply Forall_map. apply Forall_forall.
    intros req _. split; cbn [rest inbound performed].
    + apply Always_viaProxy. apply permits_takes_one.
    + intros Hov. exists 0%nat. split; [| reflexivity].
      apply Admits_viaProxy; assumption.
Qed.

(** C1.  On a server constructed with the canary limit [N], started with any
    requests and run under any interleaving of their goroutines and any
    behaviour of the outside world: the bucket starts with [N] tokens and
    never holds fewer than zero or more than [N]; the goroutines whose
    request carries no override have forwarded at most [N] requests to
    canary; no step raises the token count, and a step that changes it takes
    exactly one token from a bucket that has one.  [TakeAvailable(1)] takes
    one token when there is one and none otherwise. *)
Theorem canary_quota_bounds_decided_dispatches :
  forall (cfg : Config) (ver : string) (s : Server) (N : Z)
         (reqs : list Request) (pool : Pool),
    RequestLimitCanary (CircuitBreaker cfg) = N ->
    0 < N < 2 ^ 63 ->
    NewServer cfg ver = inl s ->
    steps (spawn s reqs) pool ->
    tokens (spawn s reqs) = N /\
    0 <= tokens pool <= N /\
    Z.of_nat (decision_canary_dispatches pool) <= N /\
    (forall pool', step pool pool' ->
       tokens pool' = tokens pool \/
       (0 < tokens pool /\ tokens pool' = tokens pool - 1)) /\
    (forall pool', steps pool pool' -> tokens pool' <= tokens pool) /\
    (forall bk,
       (0 < availableTokens bk -> TakeAvailable 1 bk = (1, spend bk)) /\
       (availableTokens bk <= 0 -> TakeAvailable 1 bk = (0, bk))).
Proof.
  intros cfg ver s N reqs pool HN Hrange Hnew Hsteps.
  pose proof (NewServer_canaryBucket cfg ver s Hnew) as Hbk.
  rewrite HN in Hbk.
  replace (N =? 0) with false in Hbk by (symmetry; apply Z.eqb_neq; lia).
  rewrite int64_in_range in Hbk by lia.
  pose proof (spawn_PoolInv s _ reqs Hbk) as Hinit.
  cbn [availableTokens NewBucket] in Hinit. specialize (Hinit ltac:(lia)).
  destruct (steps_preserve N _ _ Hinit Hsteps) as [Hinv _].
  destruct (PoolInv_bound N pool Hinv) as [Hb Hd].
  split; [unfold tokens, spawn; cbn [shared]; rewrite Hbk; reflexivity |].
  split; [exact Hb |].
  split; [lia |].
  split; [intros pool' Hstep; apply (step_preserves N pool pool' Hinv Hstep) |].
  split; [intros pool' Hs; apply (steps_preserve N pool pool' Hinv Hs) |].
  exact TakeAvailable_one_cases.
Qed.

Lemma permits_override_leaves_bucket : permits_override leaves_bucket.
Proof.
  unfold permits_override, leaves_bucket. repeat split; cbn; auto.
  intros op. destruct op; cbn; auto; contradiction.
Qed.

Lemma overridden_true :
  forall req, Header_Get (Header req) "X-Canary" = "true" -> overridden req = true.
Proof. intros req H. unfold overridden. rewrite H. reflexivity. Qed.

(** C10.  A request whose [X-Canary] header is exactly ["true"] never calls
    the bucket: in every environment the bucket after the request is the
    bucket before it, and when nothing panics the request is forwarded to
    canary.  Such dispatches are therefore not counted: on a server with
    the limit 1, two requests with the header are both forwarded to canary
    and the bucket still holds its one token. *)
Theorem override_dispatch_is_not_counted :
  (forall (env : Env) (s : Server) (req : Request) (b : option Bucket),
     Header_Get (Header req) "X-Canary" = "true" ->
     let r := serving env s req b in
     bucket_after r = b /\ bucket_calls (trace r) = [] /\
     (calm env -> targets (trace r) = [Canary])) /\
  (let s := demo_server demo_sidecar_url 1 in
   let reqs := [demo_request ["true"]; demo_request ["true"]] in
   let pool :=
     schedule demo_env [0; 1; 0; 1; 0; 1; 0; 1; 0; 1; 0; 1; 0; 1]%nat
       (spawn s reqs) in
   steps (spawn s reqs) pool /\
   RequestLimitCanary (CircuitBreaker (config s)) = 1 /\
   tokens pool = 1 /\
   all_canary_dispatches pool = 2%nat /\
   decision_canary_dispatches pool = 0%nat).
Proof.
  split.
  - intros env s req b Hv r. subst r. unfold serving, ServeHTTP.
    destruct (Always_leaves_bucket _ env _ b NewRecorder
                (Always_viaProxy_override StatusCodeMain StatusCodeCanary _ s req
                   (overridden_true req Hv) permits_override_leaves_bucket))
      as [Hb Hc].
    split; [exact Hb |]. split; [exact Hc |].
    intros Hcalm.
    pose proof (yields_viaProxy_override StatusCodeMain StatusCodeCanary env Hcalm
                  s req true b NewRecorder) as H.
    rewrite Hv in H. specialize (H convertToBool_true).
    destruct H as (req' & (_ & _ & _ & Hd & _) & _).
    unfold targets. rewrite Hd. reflexivity.
  - cbv zeta. split; [apply schedule_steps |].
    split; [reflexivity |].
    split; [vm_compute; reflexivity |].
    split; vm_compute; reflexivity.
Qed.


End Quota.

(** ** The model at work *)

Lemma demo_calm : forall reply, calm (demo_world reply never).
Proof. intros reply op. reflexivity. Defined.

(** With the limit 1 and a sidecar that always answers the canary code, two
    racing requests both pass the pre-check; the first is admitted and goes
    to canary, the second is refused by [TakeAvailable] and goes to main. *)
Example race_is_settled_by_admission :
  let s := demo_server demo_sidecar_url 1 in
  let start := spawn demo_main_code demo_canary_code s
                 [demo_request []; demo_request []] in
  let pool := schedule demo_env racing_order start in
  steps start pool /\
  map (fun g => bucket_calls (performed g)) (goroutines pool) =
    [[BucketAvailable; BucketTakeAvailable 1];
     [BucketAvailable; BucketTakeAvailable 1]] /\
  map (fun g => targets (performed g)) (goroutines pool) = [[Canary]; [Main]] /\
  map (fun g => reasons (performed g)) (goroutines pool) =
    [["Sidecar returns status code 200"];
     ["Sidecar returns status code 200, but canary limit reached"]] /\
  tokens pool = 0.
Proof.
  cbv zeta. split; [apply schedule_steps |].
  repeat split; vm_compute; reflexivity.
Qed.

(** The path of the spec's scenario: [/api/v1/orders] with the prefix [/api]
    reaches the backend as [/v1/orders]. *)
Example trimmed_path_reaches_backend :
  map (fun d => Path (snd d))
      (dispatches (trace (serving demo_main_code demo_canary_code demo_env
                            (demo_server demo_sidecar_url 0) (demo_request []) None)))
  = ["/v1/orders"].
Proof. vm_compute. reflexivity. Qed.

(** ** The theorems at concrete requests *)

Lemma header_override_decides_witness :
  calm demo_env /\
  (let r := serving demo_main_code demo_canary_code demo_env
              (demo_server demo_sidecar_url 1) (demo_request ["true"])
              (Some (demo_bucket 0)) in
   targets (trace r) = [Canary] /\ sidecar_calls (trace r) = [] /\
   bucket_after r = Some (demo_bucket 0)) /\
  (let r := serving demo_main_code demo_canary_code demo_env
              (demo_server demo_sidecar_url 1) (demo_request ["false"])
              (Some (demo_bucket 1)) in
   targets (trace r) = [Main] /\ sidecar_calls (trace r) = [] /\
   bucket_after r = Some (demo_bucket 1)) /\
  snd (convertToBool (Header_Get (Header (demo_request ["TRUE"])) "X-Canary")) <> None.
Proof.
  split; [exact (demo_calm _) |].
  split.
  { destruct (proj1 (header_override_decides demo_main_code demo_canary_code demo_env
                       (demo_calm _) (demo_server demo_sidecar_url 1)
                       (demo_request ["true"]) (Some (demo_bucket 0))) eq_refl)
      as (_ & H2 & _ & H4 & _ & H6).
    repeat split; assumption. }
  split.
  { destruct (proj1 (proj2 (header_override_decides demo_main_code demo_canary_code
                       demo_env (demo_calm _) (demo_server demo_sidecar_url 1)
                       (demo_request ["false"]) (Some (demo_bucket 1)))) eq_refl)
      as (_ & H2 & _ & H4 & _ & H6).
    repeat split; assumption. }
  refine (proj1 (proj2 (proj2 (header_override_decides demo_main_code demo_canary_code
                   demo_env (demo_calm _) (demo_server demo_sidecar_url 1)
                   (demo_request ["TRUE"]) None)) _ _)); vm_compute; discriminate.
Defined.

Lemma no_sidecar_routes_to_main_witness :
  calm demo_env /\
  SidecarURL (config (demo_server EmptyString 0)) = EmptyString /\
  overridden (demo_request ["yes"]) = false /\
  (let r := serving demo_main_code demo_canary_code demo_env
              (demo_server EmptyString 0) (demo_request ["yes"]) None in
   result r = Returned tt /\ targets (trace r) = [Main] /\
   sidecar_calls (trace r) = [] /\ bucket_calls (trace r) = [] /\
   bucket_after r = None).
Proof.
  split; [exact (demo_calm _) |].
  split; [reflexivity |]. split; [reflexivity |].
  exact (no_sidecar_routes_to_main demo_main_code demo_canary_code demo_env
           (demo_calm _) (demo_server EmptyString 0) (demo_request ["yes"]) None
           eq_refl eq_refl).
Defined.

Lemma exhausted_quota_skips_sidecar_witness :
  calm demo_env /\
  SidecarURL (config (demo_server demo_sidecar_url 1)) <> EmptyString /\
  IsCanaryLimited (demo_server demo_sidecar_url 1) = true /\
  availableTokens (demo_bucket 0) <= 0 /\
  overridden (demo_request []) = false /\
  (let r := serving demo_main_code demo_canary_code demo_env
              (demo_server demo_sidecar_url 1) (demo_request [])
              (Some (demo_bucket 0)) in
   result r = Returned tt /\ targets (trace r) = [Main] /\
   reasons (trace r) = ["Canary limit reached"] /\
   Forall (fun reason => contains reason "limit reached") (reasons (trace r)) /\
   sidecar_calls (trace r) = [] /\
   bucket_calls (trace r) = [BucketAvailable] /\
   bucket_after r = Some (demo_bucket 0)).
Proof.
  assert (Hurl : SidecarURL (config (demo_server demo_sidecar_url 1)) <> EmptyString)
    by (vm_compute; discriminate).
  assert (Hz : availableTokens (demo_bucket 0) <= 0) by (vm_compute; discriminate).
  split; [exact (demo_calm _) |].
  split; [exact Hurl |]. split; [reflexivity |]. split; [exact Hz |].
  split; [reflexivity |].
  exact (exhausted_quota_skips_sidecar demo_main_code demo_canary_code demo_env
           (demo_calm _) (demo_server demo_sidecar_url 1) (demo_request [])
           (demo_bucket 0) Hurl eq_refl Hz eq_refl).
Defined.

Lemma canary_decision_witness :
  calm demo_env /\ demo_canary_code <> demo_main_code /\
  (let r := exec demo_env
              (routeOnStatus demo_main_code demo_canary_code
                 (demo_server demo_sidecar_url 1) (demo_request []) demo_canary_code)
              (Some (demo_bucket 0)) NewRecorder in
   targets (trace r) = [Main] /\
   reasons (trace r) = ["Sidecar returns status code 200, but canary limit reached"] /\
   bucket_after r = Some (demo_bucket 0)) /\
  (let r := exec demo_env
              (routeOnStatus demo_main_code demo_canary_code
                 (demo_server demo_sidecar_url 1) (demo_request []) demo_canary_code)
              (Some (demo_bucket 1)) NewRecorder in
   targets (trace r) = [Canary] /\
   bucket_after r = Some (demo_bucket 0)).
Proof.
  assert (Hne : demo_canary_code <> demo_main_code) by (vm_compute; discriminate).
  assert (Hz : availableTokens (demo_bucket 0) <= 0) by (vm_compute; discriminate).
  assert (Hp : 0 < availableTokens (demo_bucket 1)) by reflexivity.
  pose proof (canary_decision_is_admitted_or_falls_back demo_main_code demo_canary_code
                demo_env (demo_calm _) (demo_server demo_sidecar_url 1)
                (demo_request []) Hne) as (Hrefused & Hadmitted & _).
  split; [exact (demo_calm _) |]. split; [exact Hne |].
  split.
  - destruct (Hrefused (demo_bucket 0) NewRecorder eq_refl Hz)
      as (_ & H2 & H3 & _ & _ & H5).
    repeat split; assumption.
  - destruct (Hadmitted (demo_bucket 1) NewRecorder eq_refl Hp) as (_ & H2 & _ & _ & H5).
    split; assumption.
Defined.

Lemma sidecar_status_mapping_witness :
  let s := demo_server demo_sidecar_url 1 in
  let req := demo_request [] in
  let b := Some (demo_bucket 1) in
  let answers_main := demo_world (Responded 204 "stay") never in
  let answers_teapot := demo_world (Responded 418 "teapot") never in
  calm answers_main /\ calm answers_teapot /\
  SidecarURL (config s) <> EmptyString /\ overridden req = false /\
  precheck_passes s b /\ failure (Body req) = None /\
  (let r := serving demo_main_code demo_canary_code answers_main s req b in
   targets (trace r) = [Main] /\
   reasons (trace r) = ["Sidecar returns status code 204"]) /\
  (let r := serving demo_main_code demo_canary_code answers_teapot s req b in
   targets (trace r) = [Main] /\
   reasons (trace r) = ["Sidecar returns non standard status code 418"]).
Proof.
  intros s req b answers_main answers_teapot.
  assert (Hurl : SidecarURL (config s) <> EmptyString) by (vm_compute; discriminate).
  assert (Hp : precheck_passes s b)
    by (right; exists (demo_bucket 1); split; reflexivity).
  split; [exact (demo_calm _) |]. split; [exact (demo_calm _) |].
  split; [exact Hurl |]. split; [reflexivity |]. split; [exact Hp |].
  split; [reflexivity |].
  split.
  - destruct (proj1 (sidecar_status_mapping demo_main_code demo_canary_code answers_main
                       (demo_calm _) s req b "stay" Hurl eq_refl Hp eq_refl) eq_refl)
      as (_ & H2 & H3 & _).
    + vm_compute; discriminate.
    + split; assumption.
  - destruct (proj2 (sidecar_status_mapping demo_main_code demo_canary_code answers_teapot
                       (demo_calm _) s req b "teapot" Hurl eq_refl Hp eq_refl) 418 eq_refl)
      as (_ & H2 & H3 & _).
    + vm_compute; discriminate.
    + vm_compute; discriminate.
    + vm_compute; discriminate.
    + split; assumption.
Defined.

Lemma sidecar_error_falls_back_to_main_witness :
  let s := demo_server demo_sidecar_url 1 in
  let req := demo_request [] in
  let b := Some (demo_bucket 1) in
  let timing_out := demo_world (Responded 503 "timeout") never in
  let unreachable := demo_world (TransportFailed "dial tcp: connection refused") never in
  calm timing_out /\ calm unreachable /\
  SidecarURL (config s) <> EmptyString /\ overridden req = false /\
  precheck_passes s b /\ failure (Body req) = None /\
  (let r := serving demo_main_code demo_canary_code timing_out s req b in
   result r = Returned tt /\ targets (trace r) = [Main] /\
   reasons (trace r) = ["timeout"] /\ bucket_after r = b) /\
  (let r := serving demo_main_code demo_canary_code unreachable s req b in
   result r = Returned tt /\ targets (trace r) = [Main] /\
   reasons (trace r) = ["dial tcp: connection refused"] /\ bucket_after r = b).
Proof.
  intros s req b timing_out unreachable.
  assert (Hurl : SidecarURL (config s) <> EmptyString) by (vm_compute; discriminate).
  assert (Hp : precheck_passes s b)
    by (right; exists (demo_bucket 1); split; reflexivity).
  split; [exact (demo_calm _) |]. split; [exact (demo_calm _) |].
  split; [exact Hurl |]. split; [reflexivity |]. split; [exact Hp |].
  split; [reflexivity |].
  split.
  - destruct (sidecar_error_falls_back_to_main demo_main_code demo_canary_code timing_out
                (demo_calm _) s req b "timeout" Hurl eq_refl Hp eq_refl
                (or_introl eq_refl))
      as (_ & _ & H1 & H2 & H3 & _ & _ & H6).
    repeat split; assumption.
  - destruct (sidecar_error_falls_back_to_main demo_main_code demo_canary_code unreachable
                (demo_calm _) s req b "dial tcp: connection refused" Hurl eq_refl Hp
                eq_refl (or_intror eq_refl))
      as (_ & _ & H1 & H2 & H3 & _ & _ & H6).
    repeat split; assumption.
Defined.


Lemma canary_quota_witness :
  let cfg := demo_config demo_sidecar_url 1 in
  let s := demo_server demo_sidecar_url 1 in
  let start := spawn demo_main_code demo_canary_code s
                 [demo_request []; demo_request []] in
  let pool := schedule demo_env racing_order start in
  RequestLimitCanary (CircuitBreaker cfg) = 1 /\ 0 < 1 < 2 ^ 63 /\
  NewServer demo_newReverseProxy cfg "v1" = inl s /\
  steps start pool /\
  0 <= tokens pool <= 1 /\
  Z.of_nat (decision_canary_dispatches pool) <= 1.
Proof.
  intros cfg s start pool.
  assert (Hrange : 0 < 1 < 2 ^ 63) by (split; reflexivity).
  assert (Hnew : NewServer demo_newReverseProxy cfg "v1" = inl s) by reflexivity.
  assert (Hsteps : steps start pool) by apply schedule_steps.
  split; [reflexivity |]. split; [exact Hrange |]. split; [exact Hnew |].
  split; [exact Hsteps |].
  destruct (canary_quota_bounds_decided_dispatches demo_main_code demo_canary_code
              demo_newReverseProxy cfg "v1" s 1 [demo_request []; demo_request []]
              pool eq_refl Hrange Hnew Hsteps)
    as (_ & Hb & Hd & _).
  split; assumption.
Defined.

Lemma override_dispatch_is_not_counted_witness :
  let s := demo_server demo_sidecar_url 1 in
  let req := demo_request ["true"] in
  let r := serving demo_main_code demo_canary_code demo_env s req (Some (demo_bucket 0)) in
  Header_Get (Header req) "X-Canary" = "true" /\
  bucket_after r = Some (demo_bucket 0) /\ bucket_calls (trace r) = [] /\
  targets (trace r) = [Canary].
Proof.
  intros s req r. split; [reflexivity |].
  destruct (proj1 (override_dispatch_is_not_counted demo_main_code demo_canary_code)
              demo_env s req (Some (demo_bucket 0)) eq_refl) as (H1 & H2 & H3).
  split; [exact H1 |]. split; [exact H2 |]. exact (H3 (demo_calm _)).
Defined.



(** ** Further properties of [server.go] *)

(** *** [convertToBool] *)

(** X1.  [convertToBool] answers [true] for exactly ["true"] and [false]
    for exactly ["false"]; every other string gets the error [neither 'true' nor
    'false'].  The call of [strconv.ParseBool] inside it can therefore never
    fail, and none of the other spellings that [ParseBool] accepts gets
    through. *)
Theorem convertToBool_is_exact :
  forall v : string,
    (convertToBool v = (true, None) <-> v = "true") /\
    (convertToBool v = (false, None) <-> v = "false") /\
    (v <> "true" -> v <> "false" ->
     convertToBool v = (false, Some "neither 'true' nor 'false'")) /\
    snd (convertToBool v) <> Some "invalid syntax" /\
    (snd (convertToBool v) = None -> convertToBool v = ParseBool v) /\
    (In v ["1"; "t"; "T"; "TRUE"; "True"; "0"; "f"; "F"; "FALSE"; "False"] ->
     snd (ParseBool v) = None /\ snd (convertToBool v) <> None).
Proof.
  intros v.
  assert (Hsyn : In v ["1"; "t"; "T"; "TRUE"; "True"; "0"; "f"; "F"; "FALSE"; "False"] ->
                 snd (ParseBool v) = None /\ snd (convertToBool v) <> None).
  { intros H. cbn in H.
    repeat (destruct H as [<- | H]; [split; [reflexivity | vm_compute; discriminate] |]).
    contradiction. }
  destruct (String.eqb_spec v "true") as [-> | Ht];
    [| destruct (String.eqb_spec v "false") as [-> | Hf]].
  - split; [split; reflexivity |].
    split; [split; discriminate |].
    split; [intros H; contradiction |].
    split; [discriminate |].
    split; [reflexivity | exact Hsyn].
  - split; [split; discriminate |].
    split; [split; reflexivity |].
    split; [intros _ H; contradiction |].
    split; [discriminate |].
    split; [reflexivity | exact Hsyn].
  - rewrite (convertToBool_other v Ht Hf) in *.
    split; [split; [discriminate | intros; contradiction] |].
    split; [split; [discriminate | intros; contradiction] |].
    split; [reflexivity |].
    split; [discriminate |].
    split; [discriminate | exact Hsyn].
Qed.

(** *** [trimRequestPathPrefix] *)








(** *** The footprint of the handler *)

Lemma Always_weaken :
  forall (R : Type) (P P' : Op -> Prop) (p : Prog R),
    (forall op, P op -> P' op) -> Always P p -> Always P' p.
Proof.
  intros R P P' p Himp. induction p as [r | v | op k IH]; cbn; auto.
  intros [Hop Hk]. split; [apply Himp; exact Hop | intros a; apply IH, Hk].
Qed.

Lemma handed_over_same_payload :
  forall s req r r', handed_over s req r -> same_payload r r' -> handed_over s req r'.
Proof.
  intros s req r r' (Hp & Hh & Hc) (Hb' & Hp' & Hh').
  unfold handed_over. rewrite Hb', Hp', Hh'. auto.
Qed.

Lemma handed_over_replayable :
  forall s req r, handed_over s req r -> handed_over s req (replayable r).
Proof. intros s req r H. exact H. Qed.

Section Footprint.

Variable StatusCodeMain : Z.
Variable StatusCodeCanary : Z.

Local Abbreviation routeOnStatus := (routeOnStatus StatusCodeMain StatusCodeCanary).
Local Abbreviation viaProxyWithSidecar := (viaProxyWithSidecar StatusCodeMain StatusCodeCanary).
Local Abbreviation handlerFunc := (handlerFunc StatusCodeMain StatusCodeCanary).
Local Abbreviation pipeline := (pipeline StatusCodeMain StatusCodeCanary).
Local Abbreviation viaProxy := (viaProxy StatusCodeMain StatusCodeCanary).
Local Abbreviation serving := (serving StatusCodeMain StatusCodeCanary).

Lemma footprint_setRoutingReason :
  forall s req r reason, Always (footprint s req) (setRoutingReason r reason).
Proof.
  intros s req r reason. unfold setRoutingReason. cbn.
  split; [exact I |]. intros [[ctx [e |]] | v]; cbn; auto.
Qed.

Lemma footprint_recordMetricTarget :
  forall s req ctx t, Always (footprint s req) (recordMetricTarget s ctx (target_name t)).
Proof.
  intros s req ctx t. unfold recordMetricTarget. cbn.
  split; [destruct t; cbn; auto |].
  intros [[ctx1 [e1 |]] | v1]; cbn; auto;
    repeat (split; [first [exact I | reflexivity] |]); try intros _;
    repeat (split; [first [exact I | reflexivity] |]);
    intros [[ctx2 [e2 |]] | v2]; cbn; auto;
    repeat (split; [first [exact I | reflexivity] |]); try intros _;
    repeat (split; [first [exact I | reflexivity] |]);
    intros [[] | v3]; cbn; auto.
Qed.

Lemma footprint_serve :
  forall s req t r, handed_over s req r -> Always (footprint s req) (serve t s r).
Proof.
  intros s req t r Hr. unfold serve.
  apply Always_defer; [apply footprint_recordMetricTarget |].
  cbn. split; [exact I |]. intros _.
  split; [exact Hr |]. intros [[] | v]; cbn; auto.
Qed.

Lemma footprint_route :
  forall s req t r reason,
    handed_over s req r ->
    Always (footprint s req) (req1 <- setRoutingReason r reason ;; serve t s req1).
Proof.
  intros s req t r reason Hr.
  apply (Always_bind _ _ _ (same_payload r)).
  - apply footprint_setRoutingReason.
  - apply Returns_setRoutingReason.
  - intros r' Hsame. apply footprint_serve.
    exact (handed_over_same_payload s req r r' Hr Hsame).
Qed.

Lemma footprint_routeOnStatus :
  forall s req r statusCode,
    handed_over s req r -> isSidecarProvided s = true -> overridden req = false ->
    Always (footprint s req) (routeOnStatus s r statusCode).
Proof.
  intros s req r statusCode Hr Hprov Hov. unfold routeOnStatus.
  destruct (statusCode =? StatusCodeMain); [apply footprint_route; exact Hr |].
  destruct (statusCode =? StatusCodeCanary); [| apply footprint_route; exact Hr].
  unfold canaryAdmissionRefused, canaryBucket_TakeAvailable.
  destruct (IsCanaryLimited s) eqn:Hl; cbn [bind trigger Always returning];
    [| apply footprint_route; exact Hr].
  split; [cbn; auto |].
  intros [n | v]; cbn [returning bind Always]; [| exact I].
  destruct (n =? 0); apply footprint_route; exact Hr.
Qed.

Lemma footprint_viaProxyWithSidecar :
  forall s req r,
    handed_over s req r -> isSidecarProvided s = true -> overridden req = false ->
    Always (footprint s req) (viaProxyWithSidecar s r).
Proof.
  intros s req r Hr Hprov Hov.
  assert (Hcall : Always (footprint s req)
            (x <- callSidecar s r ;;
             match x with
             | (req0, (statusCode, err)) =>
                 match err with
                 | Some e =>
                     req1 <- setRoutingReason req0 e ;;
                     trigger (LogPrint (LogText ("Error when calling sidecar: " ++ e))) ;;
                     serveMain s req1
                 | None => routeOnStatus s req0 statusCode
                 end
             end)).
  { apply (Always_bind _ _ _ (fun x => fst x = replayable r)).
    - apply Always_callSidecar. cbn. repeat split; try assumption; apply Hr.
    - apply Returns_callSidecar.
    - intros [req0 [statusCode [e |]]] Hx; cbn in Hx; subst req0.
      + apply (Always_bind _ _ _ (same_payload (replayable r))).
        * apply footprint_setRoutingReason.
        * apply Returns_setRoutingReason.
        * intros r' Hsame. cbn [bind trigger Always]. split; [exact I |]. intros _.
          apply footprint_serve.
          exact (handed_over_same_payload s req _ r'
                   (handed_over_replayable s req r Hr) Hsame).
      + apply footprint_routeOnStatus; [| assumption | assumption].
        apply handed_over_replayable. exact Hr. }
  unfold viaProxyWithSidecar, canaryLimitReached, canaryBucket_Available.
  destruct (IsCanaryLimited s) eqn:Hl; cbn [bind trigger Always returning].
  - split; [cbn; auto |].
    intros [n | v]; cbn [returning bind Always]; [| exact I].
    destruct (n <=? 0); [apply footprint_route; exact Hr | exact Hcall].
  - exact Hcall.
Qed.

Lemma footprint_viaProxy :
  forall s req, Always (footprint s req) (viaProxy s req).
Proof.
  intros s req. unfold viaProxy.
  apply Always_deferRecover.
  { intros v. unfold recovered, http_Error. cbn. auto. }
  unfold pipeline. cbn [bind trigger Always]. split; [exact I |].
  intros [ctx | v]; cbn [returning bind Always]; [| exact I].
  cbn [with_Path WithContext Header].
  assert (Hr : handed_over s req
                 (with_Path (WithContext req ctx)
                    (trimRequestPathPrefix (Path req) (TrimPrefix (config s)))))
    by (repeat split).
  destruct (convertToBool (Header_Get (Header req) "X-Canary")) as [xCanary [e |]] eqn:Hconv.
  - assert (Hov : overridden req = false) by (unfold overridden; rewrite Hconv; reflexivity).
    unfold handlerFunc. destruct (isSidecarProvided s) eqn:Hprov; cbn [negb].
    + apply footprint_viaProxyWithSidecar; assumption.
    + apply footprint_serve. exact Hr.
  - destruct xCanary; apply footprint_route; exact Hr.
Qed.

Lemma nothing_in_nil : forall (A : Type) (l : list A), (forall x, ~ In x l) -> l = [].
Proof.
  intros A [| x l] H; [reflexivity |]. destruct (H x). left. reflexivity.
Qed.

Lemma footprint_trace :
  forall env s req b e,
    In e (trace (serving env s req b)) -> footprint s req (ev_op e).
Proof.
  intros env s req b.
  pose proof (Always_trace _ _ env _ b NewRecorder (footprint_viaProxy s req)) as H.
  rewrite Forall_forall in H. exact H.
Qed.

Lemma bucket_calls_In :
  forall tr op, In op (bucket_calls tr) ->
                exists e, In e tr /\ ev_op e = op /\ is_bucket_op op = true.
Proof.
  intros tr op. unfold bucket_calls. rewrite filter_In, in_map_iff.
  intros [(e & He & Hin) Hb]. exists e. auto.
Qed.

Lemma exec_bucket_present :
  forall (R : Type) (env : Env) (p : Prog R) bk w,
    Forall (fun e => nil_dereferenced e = false) (trace (exec env p (Some bk) w)).
Proof.
  intros R env p. induction p as [r | v | op k IH]; intros bk w; cbn [exec].
  - constructor.
  - constructor.
  - destruct (interp env op (Some bk) w) as [a [b' w']] eqn:Hi.
    cbn [trace].
    destruct op; cbn in Hi; inversion Hi; subst; clear Hi;
      try (constructor; [reflexivity | apply IH]).
    destruct (TakeAvailable count bk) as [taken bk'] eqn:Ht.
    inversion H0; subst. constructor; [reflexivity | apply IH].
Qed.

(** X3.  In every environment, whatever the handler passes to a backend or
    replays to the sidecar has the path with the configured prefix trimmed
    and the headers of the inbound request, the [X-Canary] header
    included. *)
Theorem request_is_handed_on_trimmed :
  forall (env : Env) (s : Server) (req : Request) (b : option Bucket),
    (forall t r,
       In (t, r) (dispatches (trace (serving env s req b))) ->
       Path r = trimRequestPathPrefix (Path req) (TrimPrefix (config s)) /\
       Header r = Header req /\
       Header_Get (Header r) "X-Canary" = Header_Get (Header req) "X-Canary") /\
    (forall outreq,
       In outreq (sidecar_calls (trace (serving env s req b))) ->
       Path outreq = trimRequestPathPrefix (Path req) (TrimPrefix (config s)) /\
       Header outreq = Header req /\
       failure (Body outreq) = None).
Proof.
  intros env s req b. split.
  - intros t r Hin. apply In_choose in Hin. destruct Hin as (e & He & Hop).
    pose proof (footprint_trace env s req b e He) as Hf.
    destruct e as [op a]. cbn in *.
    destruct op; try discriminate. inversion Hop; subst.
    destruct Hf as (Hp & Hh & _). rewrite Hh. auto.
  - intros outreq Hin. apply In_choose in Hin. destruct Hin as (e & He & Hop).
    pose proof (footprint_trace env s req b e He) as Hf.
    destruct e as [op a]. cbn in *.
    destruct op; try discriminate. inversion Hop; subst.
    destruct Hf as (_ & _ & (Hp & Hh & _) & Hfail). auto.
Qed.

(** X4.  The guards of the handler hold in every environment: without a
    limit no method of the bucket is called, without a sidecar URL neither
    the sidecar nor the bucket is called, with an override the sidecar is
    not called; and when the bucket exists whenever the server is limited,
    as it does for the bucket the server was built with, no call ends in a
    nil dereference. *)
Theorem handler_guards_its_collaborators :
  forall (env : Env) (s : Server) (req : Request) (b : option Bucket),
    let r := serving env s req b in
    (IsCanaryLimited s = false ->
     bucket_calls (trace r) = [] /\ bucket_after r = b) /\
    (SidecarURL (config s) = EmptyString ->
     sidecar_calls (trace r) = [] /\ bucket_calls (trace r) = [] /\
     bucket_after r = b) /\
    (overridden req = true -> sidecar_calls (trace r) = []) /\
    (consistent s b -> Forall (fun e => nil_dereferenced e = false) (trace r)) /\
    consistent s (canaryBucket s).
Proof.
  intros env s req b r. subst r.
  assert (Hnone : forall Q : Prop,
            (forall op, is_bucket_op op = true -> footprint s req op -> Q) ->
            ~ Q ->
            bucket_calls (trace (serving env s req b)) = [] /\
            bucket_after (serving env s req b) = b).
  { intros Q HQ Hno. unfold serving, ServeHTTP.
    assert (Hleave : Always leaves_bucket (viaProxy s req)).
    { apply (Always_weaken _ (footprint s req)); [| apply footprint_viaProxy].
      intros op Hf. unfold leaves_bucket.
      destruct (is_bucket_op op) eqn:Hb; [| reflexivity].
      destruct Hno. exact (HQ op Hb Hf). }
    destruct (Always_leaves_bucket _ env _ b NewRecorder Hleave) as [H1 H2].
    split; assumption. }
  assert (Hside : forall Q : Prop,
            (forall outreq, footprint s req (SidecarRoundTrip outreq) -> Q) ->
            ~ Q -> sidecar_calls (trace (serving env s req b)) = []).
  { intros Q HQ Hno. apply nothing_in_nil. intros outreq Hin.
    apply In_choose in Hin. destruct Hin as (e & He & Hop).
    pose proof (footprint_trace env s req b e He) as Hf.
    destruct e as [op a]. cbn in *.
    destruct op; try discriminate. inversion Hop; subst.
    exact (Hno (HQ _ Hf)). }
  split; [| split; [| split; [| split]]].
  - intros Hl. apply (Hnone (IsCanaryLimited s = true)); [| congruence].
    intros op Hb Hf. destruct op; try discriminate Hb; cbn in Hf; tauto.
  - intros Hurl. pose proof (isSidecarProvided_false s Hurl) as Hprov.
    split.
    + apply (Hside (isSidecarProvided s = true)); [| congruence].
      intros outreq Hf. cbn in Hf. tauto.
    + apply (Hnone (isSidecarProvided s = true)); [| congruence].
      intros op Hb Hf. destruct op; try discriminate Hb; cbn in Hf; tauto.
  - intros Hov. apply (Hside (overridden req = false)); [| congruence].
    intros outreq Hf. cbn in Hf. tauto.
  - intros Hcons. destruct (IsCanaryLimited s) eqn:Hl.
    + destruct (Hcons Hl) as (bk & ->). apply exec_bucket_present.
    + apply Forall_forall. intros e He.
      pose proof (footprint_trace env s req b e He) as Hf.
      destruct e as [op a]. cbn in *.
      destruct op; try reflexivity; cbn in Hf; intuition congruence.
  - unfold consistent, IsCanaryLimited.
    destruct (canaryBucket s) as [bk |]; [eauto | discriminate].
Qed.

(** *** The shape of the handler *)

Lemma prefix_op_setRoutingReason :
  forall r reason, Always prefix_op (setRoutingReason r reason).
Proof.
  intros r reason. unfold setRoutingReason. cbn.
  split; [exact I |]. intros [[ctx [e |]] | v]; cbn; auto.
Qed.

Lemma prefix_op_returning :
  forall (X : Type) (o : Outcome X), Always prefix_op (returning o).
Proof. intros X [x | v]; exact I. Qed.

(** A property [G] of handlers holds of [viaProxy] when it holds of
    [serveMain] and [serveCanary], survives a prefix of other operations and
    the deferred recovery, and holds of an admission followed by handlers
    with the property [K]. *)
Lemma handler_shape :
  forall (G K : Prog unit -> Prop),
    (forall t s r, K (serve t s r)) ->
    (forall (A : Type) (p : Prog A) (f : A -> Prog unit),
       Always prefix_op p -> (forall a, K (f a)) -> K (bind p f)) ->
    (forall p, K p -> G p) ->
    (forall (A : Type) (p : Prog A) (f : A -> Prog unit),
       Always prefix_op p -> (forall a, G (f a)) -> G (bind p f)) ->
    (forall s (f : bool -> Prog unit),
       (forall x, K (f x)) -> G (bind (canaryAdmissionRefused s) f)) ->
    (forall req p, G p -> G (deferRecover (recovered req) p)) ->
    forall s req, G (viaProxy s req).
Proof.
  intros G K Kserve Kbind KG Gbind Gadmit Grecover s req.
  assert (Kroute : forall t r reason,
             K (req1 <- setRoutingReason r reason ;; serve t s req1)).
  { intros t r reason. apply Kbind; [apply prefix_op_setRoutingReason |].
    intros a. apply Kserve. }
  assert (Glogged : forall r reason entry,
             G (req1 <- setRoutingReason r reason ;;
                trigger (LogPrint entry) ;; serveMain s req1)).
  { intros r reason entry. apply Gbind; [apply prefix_op_setRoutingReason |].
    intros a. apply Gbind; [cbn; auto |]. intros _. apply KG, Kserve. }
  assert (Gswitch : forall r statusCode, G (routeOnStatus s r statusCode)).
  { intros r statusCode. unfold routeOnStatus.
    destruct (statusCode =? StatusCodeMain); [apply KG, Kroute |].
    destruct (statusCode =? StatusCodeCanary); [| apply KG, Kroute].
    apply Gadmit. intros [|]; apply Kroute. }
  assert (Gsidecar : forall r, G (viaProxyWithSidecar s r)).
  { intros r. unfold viaProxyWithSidecar. apply Gbind.
    - unfold canaryLimitReached, canaryBucket_Available.
      destruct (IsCanaryLimited s); cbn; auto.
      split; [exact I |]. intros [n | v]; cbn; auto.
    - intros [|]; [apply KG, Kroute |].
      apply Gbind; [apply Always_callSidecar; exact I |].
      intros [req0 [statusCode [e |]]]; [apply Glogged | apply Gswitch]. }
  unfold viaProxy. apply Grecover.
  unfold pipeline. apply Gbind; [cbn; auto |].
  intros o. apply Gbind; [apply prefix_op_returning |].
  intros ctx. cbn [with_Path WithContext Header].
  destruct (convertToBool (Header_Get (Header req) "X-Canary")) as [xCanary [e |]].
  - unfold handlerFunc. destruct (negb (isSidecarProvided s)).
    + apply KG, Kserve.
    + apply Gsidecar.
  - apply Gbind; [apply prefix_op_setRoutingReason |].
    intros a. destruct xCanary; apply KG, Kserve.
Qed.

Lemma trace_bind :
  forall (A B : Type) (env : Env) (p : Prog A) (f : A -> Prog B) b w,
    trace (exec env (bind p f) b w) =
    (trace (exec env p b w) ++
     match result (exec env p b w) with
     | Returned a =>
         trace (exec env (f a) (bucket_after (exec env p b w))
                  (writer_after (exec env p b w)))
     | Panicked _ => []
     end)%list.
Proof.
  intros A B env p f b w. rewrite exec_bind. unfold followed_by.
  destruct (result (exec env p b w)); cbn [trace]; [reflexivity |].
  rewrite app_nil_r. reflexivity.
Qed.

Lemma trace_deferRecover :
  forall (env : Env) (h : PanicValue -> Prog unit) (p : Prog unit) b w,
    trace (exec env (deferRecover h p) b w) =
    (trace (exec env p b w) ++
     match result (exec env p b w) with
     | Returned _ => []
     | Panicked v =>
         trace (exec env (h v) (bucket_after (exec env p b w))
                  (writer_after (exec env p b w)))
     end)%list.
Proof.
  intros env h p b w. rewrite exec_deferRecover.
  destruct (result (exec env p b w)); cbn [trace]; [| reflexivity].
  rewrite app_nil_r. reflexivity.
Qed.

Lemma not_dispatch_trace :
  forall (R : Type) (env : Env) (p : Prog R) b w,
    Always not_dispatch p ->
    dispatches (trace (exec env p b w)) = [] /\
    tagged_targets (trace (exec env p b w)) = [].
Proof.
  intros R env p. induction p as [r | v | op k IH]; intros b w; cbn [exec Always].
  - auto.
  - auto.
  - intros [Hop Hk]. destruct (interp env op b w) as [a [b' w']]. cbn [trace].
    destruct (IH a b' w' (Hk a)) as [H1 H2].
    destruct op; cbn in Hop; try contradiction; cbn; auto.
Qed.

Lemma prefix_op_not_dispatch : forall op, prefix_op op -> not_dispatch op.
Proof. intros op. destruct op; cbn; auto. Qed.

Lemma prefix_op_keeps_tokens : forall op, prefix_op op -> keeps_tokens op.
Proof. intros op. destruct op; cbn; auto. Qed.

Lemma keeps_tokens_bucket :
  forall (R : Type) (env : Env) (p : Prog R) b w,
    Always keeps_tokens p -> bucket_after (exec env p b w) = b.
Proof.
  intros R env p. induction p as [r | v | op k IH]; intros b w; cbn [exec Always].
  - reflexivity.
  - reflexivity.
  - intros [Hop Hk]. destruct (interp env op b w) as [a [b' w']] eqn:Hi.
    cbn [bucket_after]. rewrite (IH a b' w' (Hk a)).
    destruct op; cbn in Hop; try contradiction; cbn in Hi;
      try (inversion Hi; reflexivity).
    destruct b; inversion Hi; reflexivity.
Qed.

(** What [serveMain] and [serveCanary] leave in the trace, in every
    environment: one dispatch, and one target tag naming the backend. *)
Lemma serve_trace :
  forall env t s r b w,
    dispatches (trace (exec env (serve t s r) b w)) = [(t, r)] /\
    tagged_targets (trace (exec env (serve t s r) b w)) = [target_name t].
Proof.
  intros env t s r b w. unfold serve. rewrite exec_defer. unfold unwound_through.
  cbn [trace]. rewrite dispatches_app. unfold tagged_targets. rewrite choose_app.
  set (body := exec env
                 (trigger (LogPrint (LogRouted t r)) ;;
                  o <- trigger (ProxyServeHTTP t r) ;; returning o) b w).
  assert (Hbody : dispatches (trace body) = [(t, r)] /\
                  choose (fun e => match ev_op e with
                                   | AddTargetTag _ target => Some target
                                   | _ => None
                                   end) (trace body) = []).
  { subst body. cbn. unfold external.
    destruct (panics env (ProxyServeHTTP t r)); cbn; auto. }
  destruct Hbody as [Hd Ht]. rewrite Hd, Ht.
  set (b1 := bucket_after body). set (w1 := writer_after body).
  assert (Hrec : dispatches (trace (exec env (recordMetricTarget s (Ctx r) (target_name t))
                                      b1 w1)) = [] /\
                 choose (fun e => match ev_op e with
                                  | AddTargetTag _ target => Some target
                                  | _ => None
                                  end)
                   (trace (exec env (recordMetricTarget s (Ctx r) (target_name t)) b1 w1))
                 = [target_name t]).
  { unfold recordMetricTarget. cbn [bind trigger exec interp trace]. unfold external.
    destruct (panics env (AddTargetTag (Ctx r) (target_name t))); cbn; [auto |].
    destruct (targetTag env (Ctx r) (target_name t)) as [ctx1 [e1 |]]; cbn;
      unfold external;
      destruct (panics env (AddVersionTag ctx1 (version s))); cbn; auto;
      destruct (versionTag env ctx1 (version s)) as [ctx2 [e2 |]]; cbn;
      unfold external;
      destruct (panics env (RecordLatency ctx2)); cbn; auto. }
  destruct Hrec as [Hd' Ht']. rewrite Hd', Ht'. auto.
Qed.

Lemma dispatches_once_bind :
  forall (A : Type) (p : Prog A) (f : A -> Prog unit),
    Always not_dispatch p -> (forall a, dispatches_once_and_tags (f a)) ->
    dispatches_once_and_tags (bind p f).
Proof.
  intros A p f Hp Hf env b w.
  destruct (not_dispatch_trace _ env p b w Hp) as [Hd Ht].
  rewrite trace_bind. unfold targets, tagged_targets in *.
  rewrite dispatches_app, choose_app, Hd, Ht. cbn [app].
  destruct (result (exec env p b w)) as [a | v].
  - apply Hf.
  - cbn. auto.
Qed.

Lemma dispatches_once_viaProxy :
  forall s req, dispatches_once_and_tags (viaProxy s req).
Proof.
  apply (handler_shape dispatches_once_and_tags dispatches_once_and_tags).
  - intros t s r env b w. destruct (serve_trace env t s r b w) as [Hd Ht].
    unfold targets. rewrite Hd, Ht. cbn. auto.
  - intros A p f Hp Hf. apply dispatches_once_bind; [| exact Hf].
    exact (Always_weaken _ _ _ p prefix_op_not_dispatch Hp).
  - auto.
  - intros A p f Hp Hf. apply dispatches_once_bind; [| exact Hf].
    exact (Always_weaken _ _ _ p prefix_op_not_dispatch Hp).
  - intros s f Hf. apply dispatches_once_bind; [| exact Hf].
    unfold canaryAdmissionRefused, canaryBucket_TakeAvailable.
    destruct (IsCanaryLimited s); cbn; auto.
    split; [exact I |]. intros [n | v]; cbn; auto.
  - intros req p Hp env b w.
    rewrite trace_deferRecover. unfold targets, tagged_targets in *.
    rewrite dispatches_app, choose_app.
    assert (Hrec : forall v b1 w1,
               dispatches (trace (exec env (recovered req v) b1 w1)) = [] /\
               tagged_targets (trace (exec env (recovered req v) b1 w1)) = []).
    { intros v b1 w1. apply not_dispatch_trace.
      unfold recovered, http_Error. cbn. auto. }
    destruct (result (exec env p b w)) as [x | v].
    + cbn [dispatches choose]. rewrite !app_nil_r. apply Hp.
    + destruct (Hrec v (bucket_after (exec env p b w)) (writer_after (exec env p b w)))
        as [Hd Ht].
      unfold tagged_targets in Ht. rewrite Hd, Ht, !app_nil_r. apply Hp.
Qed.

(** X5.  In every environment, also when calls panic, a request is passed
    to a backend at most once: the run dispatches nothing, or it dispatches
    one request to one backend; never twice, and never to both backends. *)
Theorem request_is_dispatched_at_most_once :
  forall (env : Env) (s : Server) (req : Request) (b : option Bucket),
    (dispatches (trace (serving env s req b)) = [] /\
     targets (trace (serving env s req b)) = []) \/
    (exists t req',
       dispatches (trace (serving env s req b)) = [(t, req')] /\
       targets (trace (serving env s req b)) = [t]).
Proof.
  intros env s req b.
  destruct (dispatches_once_viaProxy s req env b NewRecorder) as [Hlen _].
  fold (ServeHTTP StatusCodeMain StatusCodeCanary s req) in Hlen.
  fold (serving env s req b) in Hlen.
  unfold targets.
  destruct (dispatches (trace (serving env s req b))) as [| [t r] [| d l]];
    cbn in *; [left; split; reflexivity | right; exists t, r; split; reflexivity | lia].
Qed.

(** X6.  In every environment, each dispatch is followed by the target tag
    of the backend it went to, also when the backend proxy panics: the
    targets handed to [AddTargetTag] are ["main"] for a dispatch to main and
    ["canary"] for a dispatch to canary, in the order of the dispatches, and
    every version handed to [AddVersionTag] is the server's version. *)
Theorem metric_names_the_backend :
  forall (env : Env) (s : Server) (req : Request) (b : option Bucket),
    tagged_targets (trace (serving env s req b)) =
      map target_name (targets (trace (serving env s req b))) /\
    (forall ver, In ver (tagged_versions (trace (serving env s req b))) ->
                 ver = version s).
Proof.
  intros env s req b. split.
  - apply (dispatches_once_viaProxy s req env b NewRecorder).
  - intros ver Hin. apply In_choose in Hin. destruct Hin as (e & He & Hop).
    pose proof (footprint_trace env s req b e He) as Hf.
    destruct e as [op a]. cbn in *.
    destruct op; try discriminate. inversion Hop; subst. exact Hf.
Qed.

Lemma admissions_app :
  forall t1 t2, admissions (t1 ++ t2) = (admissions t1 + admissions t2)%nat.
Proof.
  intros t1 t2. unfold admissions. rewrite filter_app, length_app. reflexivity.
Qed.

Lemma keeps_tokens_run :
  forall (R : Type) (env : Env) (p : Prog R) b w,
    Always keeps_tokens p ->
    admissions (trace (exec env p b w)) = 0%nat /\ bucket_after (exec env p b w) = b.
Proof.
  intros R env p b w Hp. split; [| apply keeps_tokens_bucket; exact Hp].
  revert b w Hp. induction p as [r | v | op k IH]; intros b w; cbn [exec Always].
  - reflexivity.
  - reflexivity.
  - intros [Hop Hk]. destruct (interp env op b w) as [a [b' w']]. cbn [trace].
    change (Ev op a :: trace (exec env (k a) b' w'))
      with ([Ev op a] ++ trace (exec env (k a) b' w'))%list.
    rewrite admissions_app, (IH a b' w' (Hk a)).
    destruct op; cbn in Hop; try contradiction; reflexivity.
Qed.

Lemma takes_nothing_bind :
  forall (A : Type) (p : Prog A) (f : A -> Prog unit),
    Always prefix_op p -> (forall a, takes_nothing (f a)) -> takes_nothing (bind p f).
Proof.
  intros A p f Hp Hf env b w.
  destruct (keeps_tokens_run _ env p b w
              (Always_weaken _ _ _ p prefix_op_keeps_tokens Hp)) as [Ha Hb].
  rewrite trace_bind, admissions_app, Ha, exec_bind. unfold followed_by.
  destruct (result (exec env p b w)) as [a | v]; cbn [bucket_after Nat.add].
  - rewrite Hb. apply Hf.
  - cbn. auto.
Qed.

Lemma takes_at_most_one_bind :
  forall (A : Type) (p : Prog A) (f : A -> Prog unit),
    Always prefix_op p -> (forall a, takes_at_most_one (f a)) ->
    takes_at_most_one (bind p f).
Proof.
  intros A p f Hp Hf env b w.
  destruct (keeps_tokens_run _ env p b w
              (Always_weaken _ _ _ p prefix_op_keeps_tokens Hp)) as [Ha Hb].
  rewrite trace_bind, admissions_app, Ha, exec_bind. unfold followed_by.
  destruct (result (exec env p b w)) as [a | v]; cbn [bucket_after Nat.add].
  - rewrite Hb. apply Hf.
  - cbn. auto.
Qed.

Lemma takes_at_most_one_viaProxy :
  forall s req, takes_at_most_one (viaProxy s req).
Proof.
  apply (handler_shape takes_at_most_one takes_nothing).
  - intros t s r env b w. apply keeps_tokens_run.
    apply Always_serve; [| exact I]. intros op. destruct op; cbn; auto.
  - exact takes_nothing_bind.
  - intros p Hp env b w. left. apply Hp.
  - exact takes_at_most_one_bind.
  - intros s f Hf env b w. unfold canaryAdmissionRefused, canaryBucket_TakeAvailable.
    destruct (IsCanaryLimited s); cbn [bind]; [| left; apply Hf].
    cbn [trigger bind exec interp].
    destruct b as [bk |]; [| left; cbn; auto].
    destruct (Z_lt_le_dec 0 (availableTokens bk)) as [Hpos | Hle].
    + rewrite (TakeAvailable_one_available bk Hpos).
      cbn [returning bind trace bucket_after].
      destruct (Hf (1 =? 0) env (Some (spend bk)) w) as [Ha Hb].
      right. split.
      * change (Ev (BucketTakeAvailable 1) (Returned 1) ::
                trace (exec env (f (1 =? 0)) (Some (spend bk)) w))
          with ([Ev (BucketTakeAvailable 1) (Returned 1)] ++
                trace (exec env (f (1 =? 0)) (Some (spend bk)) w))%list.
        rewrite admissions_app, Ha. reflexivity.
      * exists bk. auto.
    + rewrite (TakeAvailable_one_exhausted bk Hle).
      cbn [returning bind trace bucket_after].
      destruct (Hf (0 =? 0) env (Some bk) w) as [Ha Hb].
      left. split; [| exact Hb].
      change (Ev (BucketTakeAvailable 1) (Returned 0) ::
              trace (exec env (f (0 =? 0)) (Some bk) w))
        with ([Ev (BucketTakeAvailable 1) (Returned 0)] ++
              trace (exec env (f (0 =? 0)) (Some bk) w))%list.
      rewrite admissions_app, Ha. reflexivity.
  - intros req p Hp env b w.
    assert (Hrec : forall v b1 w1,
               admissions (trace (exec env (recovered req v) b1 w1)) = 0%nat /\
               bucket_after (exec env (recovered req v) b1 w1) = b1).
    { intros v b1 w1. apply keeps_tokens_run.
      unfold recovered, http_Error. cbn. auto. }
    rewrite trace_deferRecover, admissions_app, exec_deferRecover.
    destruct (result (exec env p b w)) as [x | v] eqn:Hres.
    + cbn. rewrite Nat.add_0_r. apply Hp.
    + destruct (Hrec v (bucket_after (exec env p b w)) (writer_after (exec env p b w)))
        as [Ha Hb].
      cbn [bucket_after]. rewrite Ha, Hb, Nat.add_0_r. apply Hp.
Qed.

(** X7.  In every environment a request takes at most one token, and only
    from a bucket that has one; a token that was taken stays taken, whatever
    happens afterwards (a failing tag, a panic of the canary proxy, the
    recovery). *)
Theorem request_takes_at_most_one_token :
  forall (env : Env) (s : Server) (req : Request) (b : option Bucket),
    let r := serving env s req b in
    (admissions (trace r) = 0%nat /\ bucket_after r = b) \/
    (admissions (trace r) = 1%nat /\
     exists bk, b = Some bk /\ 0 < availableTokens bk /\
                bucket_after r = Some (spend bk)).
Proof.
  intros env s req b. exact (takes_at_most_one_viaProxy s req env b NewRecorder).
Qed.

End Footprint.

(** *** The quota across interleavings, and the construction of the server *)

Section Construction.

Variable StatusCodeMain : Z.
Variable StatusCodeCanary : Z.
Variable newReverseProxy : string -> string -> option string.

Local Abbreviation NewServer := (NewServer newReverseProxy).
Local Abbreviation spawn := (spawn StatusCodeMain StatusCodeCanary).

(** X11.  On a server constructed with the canary limit [N], under any
    interleaving and any behaviour of the outside world, tokens are
    conserved: the tokens left in the bucket and the admissions that
    [TakeAvailable] has granted so far add up to [N], and the canary
    dispatches of requests without override never outnumber the admissions
    granted. *)
Theorem quota_is_conserved :
  forall (cfg : Config) (ver : string) (s : Server) (N : Z)
         (reqs : list Request) (pool : Pool),
    RequestLimitCanary (CircuitBreaker cfg) = N ->
    0 < N < 2 ^ 63 ->
    NewServer cfg ver = inl s ->
    steps (spawn s reqs) pool ->
    tokens pool + Z.of_nat (total_admissions pool) = N /\
    (decision_canary_dispatches pool <= total_admissions pool)%nat /\
    List.length (goroutines pool) = List.length reqs.
Proof.
  intros cfg ver s N reqs pool HN Hrange Hnew Hsteps.
  pose proof (NewServer_canaryBucket newReverseProxy cfg ver s Hnew) as Hbk.
  rewrite HN in Hbk.
  replace (N =? 0) with false in Hbk by (symmetry; apply Z.eqb_neq; lia).
  rewrite int64_in_range in Hbk by lia.
  pose proof (spawn_PoolInv StatusCodeMain StatusCodeCanary s _ reqs Hbk) as Hinit.
  cbn [availableTokens NewBucket] in Hinit. specialize (Hinit ltac:(lia)).
  destruct (steps_preserve N _ _ Hinit Hsteps) as [[(bk & Hshared & Hpos & Hsum) Hall] _].
  split; [unfold tokens; rewrite Hshared; exact Hsum |].
  split.
  - unfold decision_canary_dispatches, total_admissions.
    apply sum_over_le. eapply Forall_impl; [| exact Hall].
    intros g [_ Hadm]. destruct (overridden (inbound g)); [lia |].
    destruct (Hadm eq_refl) as (n & _ & Hcount). lia.
  - clear Hinit Hall Hsum Hshared.
    remember (spawn s reqs) as p0 eqn:Hp0.
    induction Hsteps as [p | p q r Hpq IH Hqr].
    + subst p. unfold spawn. cbn [goroutines]. apply length_map.
    + rewrite <- (IH Hp0). inversion Hqr; subst. cbn [goroutines].
      rewrite !length_app. reflexivity.
Qed.


End Construction.

(** ** The further properties at concrete requests *)

Lemma convertToBool_is_exact_witness :
  convertToBool "true" = (true, None) /\
  convertToBool "false" = (false, None) /\
  convertToBool "1" = (false, Some "neither 'true' nor 'false'") /\
  snd (ParseBool "1") = None.
Proof.
  destruct (convertToBool_is_exact "true") as (H1 & _).
  destruct (convertToBool_is_exact "false") as (_ & H2 & _).
  destruct (convertToBool_is_exact "1") as (_ & _ & H3 & _ & _ & H6).
  split; [exact (proj2 H1 eq_refl) |].
  split; [exact (proj2 H2 eq_refl) |].
  split; [apply H3; discriminate |].
  exact (proj1 (H6 (or_introl eq_refl))).
Defined.


Lemma request_is_handed_on_trimmed_witness :
  let s := demo_server demo_sidecar_url 1 in
  let req := demo_request [] in
  let r := serving demo_main_code demo_canary_code demo_env s req (Some (demo_bucket 1)) in
  let d := hd (Main, req) (dispatches (trace r)) in
  let outreq := hd req (sidecar_calls (trace r)) in
  In d (dispatches (trace r)) /\ In outreq (sidecar_calls (trace r)) /\
  Path (snd d) = "/v1/orders" /\ Path outreq = "/v1/orders" /\
  Header (snd d) = Header req.
Proof.
  intros s req r d outreq.
  assert (Hd : In (fst d, snd d) (dispatches (trace r))) by (vm_compute; left; reflexivity).
  assert (Ho : In outreq (sidecar_calls (trace r))) by (vm_compute; left; reflexivity).
  destruct (request_is_handed_on_trimmed demo_main_code demo_canary_code demo_env s req
              (Some (demo_bucket 1))) as [Hdis Hside].
  destruct (Hdis (fst d) (snd d) Hd) as (Hp & Hh & _).
  destruct (Hside outreq Ho) as (Hp' & _).
  split; [exact Hd |]. split; [exact Ho |].
  split; [exact Hp |]. split; [exact Hp' | exact Hh].
Defined.

Lemma handler_guards_its_collaborators_witness :
  let unlimited := demo_server demo_sidecar_url 0 in
  let req := demo_request [] in
  let r := serving demo_main_code demo_canary_code demo_env unlimited req None in
  IsCanaryLimited unlimited = false /\ consistent unlimited None /\
  bucket_calls (trace r) = [] /\ bucket_after r = None /\
  Forall (fun e => nil_dereferenced e = false) (trace r).
Proof.
  intros unlimited req r.
  assert (Hcons : consistent unlimited None) by (intros H; discriminate H).
  destruct (handler_guards_its_collaborators demo_main_code demo_canary_code demo_env
              unlimited req None) as (Hlim & _ & _ & Hnil & _).
  destruct (Hlim eq_refl) as [Hcalls Hafter].
  split; [reflexivity |]. split; [exact Hcons |].
  split; [exact Hcalls |]. split; [exact Hafter | exact (Hnil Hcons)].
Defined.

Lemma metric_names_the_backend_witness :
  let s := demo_server demo_sidecar_url 1 in
  let req := demo_request [] in
  let r := serving demo_main_code demo_canary_code demo_env s req (Some (demo_bucket 1)) in
  In "v1" (tagged_versions (trace r)) /\ "v1" = version s /\
  tagged_targets (trace r) = ["canary"].
Proof.
  intros s req r.
  assert (Hin : In "v1" (tagged_versions (trace r))) by (vm_compute; left; reflexivity).
  destruct (metric_names_the_backend demo_main_code demo_canary_code demo_env s req
              (Some (demo_bucket 1))) as [Htags Hver].
  split; [exact Hin |]. split; [exact (Hver "v1" Hin) |].
  exact (eq_trans Htags eq_refl).
Defined.

Lemma every_request_reaches_one_backend_witness :
  let s := demo_server demo_sidecar_url 1 in
  let req := demo_request [] in
  let r := serving demo_main_code demo_canary_code demo_env s req (Some (demo_bucket 1)) in
  calm demo_env /\ consistent s (Some (demo_bucket 1)) /\
  exists t req',
    result r = Returned tt /\ dispatches (trace r) = [(t, req')] /\
    writer_after r = apply_actions (backend demo_env t req') NewRecorder.
Proof.
  intros s req r.
  assert (Hcons : consistent s (Some (demo_bucket 1)))
    by (intros _; eexists; reflexivity).
  split; [exact (demo_calm _) |]. split; [exact Hcons |].
  exact (every_request_reaches_one_backend demo_main_code demo_canary_code demo_env
           (demo_calm _) s req (Some (demo_bucket 1)) Hcons).
Defined.

Lemma unreadable_body_falls_back_to_main_witness :
  let s := demo_server demo_sidecar_url 1 in
  let req := demo_truncated_request in
  let r := serving demo_main_code demo_canary_code demo_env s req (Some (demo_bucket 1)) in
  SidecarURL (config s) <> EmptyString /\ overridden req = false /\
  precheck_passes s (Some (demo_bucket 1)) /\
  failure (Body req) = Some "unexpected EOF" /\
  targets (trace r) = [Main] /\ reasons (trace r) = ["unexpected EOF"] /\
  sidecar_calls (trace r) = [] /\ bucket_after r = Some (demo_bucket 1).
Proof.
  intros s req r.
  assert (Hurl : SidecarURL (config s) <> EmptyString) by discriminate.
  assert (Hpre : precheck_passes s (Some (demo_bucket 1))).
  { right. exists (demo_bucket 1). split; reflexivity. }
  destruct (unreadable_body_falls_back_to_main demo_main_code demo_canary_code demo_env
              (demo_calm _) s req (Some (demo_bucket 1)) "unexpected EOF"
              Hurl eq_refl Hpre eq_refl)
    as (_ & Ht & Hr & Hs & _ & Hb & _).
  split; [exact Hurl |]. split; [reflexivity |]. split; [exact Hpre |].
  split; [reflexivity |]. split; [exact Ht |]. split; [exact Hr |].
  split; [exact Hs | exact Hb].
Defined.

Lemma quota_is_spent_in_arrival_order_witness :
  let s := demo_server demo_sidecar_url 2 in
  let reqs := [demo_request []; demo_request []; demo_request []] in
  let bk := NewBucket infinityDuration 2 in
  let runs := serve_in_turn demo_main_code demo_canary_code demo_env s reqs (Some bk) in
  SidecarURL (config s) <> EmptyString /\ IsCanaryLimited s = true /\
  demo_canary_code <> demo_main_code /\ demo_canary_code <> StatusSidecarError /\
  (forall outreq, exists body, sidecar demo_env outreq = Responded demo_canary_code body) /\
  Forall (fun req => overridden req = false /\ failure (Body req) = None) reqs /\
  0 <= availableTokens bk /\
  List.concat (map (fun r => targets (trace r)) runs) = [Canary; Canary; Main] /\
  List.concat (map (fun r => reasons (trace r)) runs) =
    ["Sidecar returns status code 200"; "Sidecar returns status code 200";
     "Canary limit reached"].
Proof.
  intros s reqs bk runs.
  assert (Hurl : SidecarURL (config s) <> EmptyString) by discriminate.
  assert (Hcodes : demo_canary_code <> demo_main_code) by discriminate.
  assert (Herr : demo_canary_code <> StatusSidecarError) by discriminate.
  assert (Hside : forall outreq,
             exists body, sidecar demo_env outreq = Responded demo_canary_code body)
    by (intros outreq; eexists; reflexivity).
  assert (Hreqs : Forall (fun req => overridden req = false /\ failure (Body req) = None)
                    reqs) by (repeat constructor).
  assert (Hpos : 0 <= availableTokens bk) by discriminate.
  destruct (quota_is_spent_in_arrival_order demo_main_code demo_canary_code demo_env
              (demo_calm _) s reqs bk Hurl eq_refl Hcodes Herr Hside Hreqs Hpos)
    as (Ht & Hr & _).
  repeat (split; [assumption || reflexivity |]).
  exact Hr.
Defined.

Lemma quota_is_conserved_witness :
  let cfg := demo_config demo_sidecar_url 1 in
  let s := demo_server demo_sidecar_url 1 in
  let start := spawn demo_main_code demo_canary_code s
                 [demo_request []; demo_request []] in
  let pool := schedule demo_env racing_order start in
  RequestLimitCanary (CircuitBreaker cfg) = 1 /\ 0 < 1 < 2 ^ 63 /\
  NewServer demo_newReverseProxy cfg "v1" = inl s /\
  steps start pool /\
  tokens pool + Z.of_nat (total_admissions pool) = 1 /\
  (decision_canary_dispatches pool <= total_admissions pool)%nat.
Proof.
  intros cfg s start pool.
  assert (Hrange : 0 < 1 < 2 ^ 63) by (split; reflexivity).
  assert (Hnew : NewServer demo_newReverseProxy cfg "v1" = inl s) by reflexivity.
  assert (Hsteps : steps start pool) by apply schedule_steps.
  split; [reflexivity |]. split; [exact Hrange |]. split; [exact Hnew |].
  split; [exact Hsteps |].
  destruct (quota_is_conserved demo_main_code demo_canary_code demo_newReverseProxy
              cfg "v1" s 1 [demo_request []; demo_request []] pool
              eq_refl Hrange Hnew Hsteps)
    as (Hsum & Hle & _).
  split; assumption.
Defined.

